(** * Constraint-system failure diagnostics (lib/Sema/CSDiagnostics.h)

    A shallow embedding of the parts of [FailureDiagnostic],
    [RequirementFailure] and [GenericArgumentsMismatchFailure] that are
    written out in the header, together with the properties the design
    document states about them.

    Conventions.
    - A nullable C++ pointer to an immutable object is an [option]; [None]
      is [nullptr].
    - [assert(c)] is fatal: a function that may trip an assertion returns
      an [Outcome], and the assertion that fired is recorded.
    - The diagnostic sink is threaded explicitly: a member function that
      may emit is a function from the sink to an [Outcome] of its result
      and the new sink.
    - The header includes declarations it does not contain (the AST, the
      locators, the solver) and declares member functions whose bodies are
      in the implementation file. What the embedding needs of them is
      modelled from the design document and marked as such. *)

From Stdlib Require Import List Bool NArith ZArith Lia.
From Stdlib Require String Ascii.
Import ListNotations.

Set Implicit Arguments.

(** ** Assertions *)

(** The assertions of the header, by the condition they check. *)
Inductive Assertion : Set :=
| AssertConditionalOrSignature   (* assert(isConditional() || Signature) *)
| AssertAffectedDecl             (* assert(AffectedDecl) *)
| AssertPathNotEmpty             (* assert(!path.empty()) *)
| AssertLastIsRequirement        (* assert(last.isTypeParameterRequirement() ||
                                           last.isConditionalRequirement()) *)
| AssertKindMatches              (* assert(static_cast<RequirementKind>(
                                           last.getValue2()) == kind) *)
| AssertFrontOfEmptyPath.        (* ArrayRef::front() on an empty path *)

Inductive Outcome (A : Type) : Type :=
| Returned (a : A)
| Aborted (why : Assertion).

Arguments Returned {A} a.
Arguments Aborted {A} why.

Definition obind {A B} (m : Outcome A) (k : A -> Outcome B) : Outcome B :=
  match m with
  | Returned a => k a
  | Aborted why => Aborted why
  end.

Definition assert (c : bool) (why : Assertion) : Outcome unit :=
  if c then Returned tt else Aborted why.

Declare Scope outcome_scope.
Delimit Scope outcome_scope with outcome.
Notation "x <- m ;; k" := (obind m (fun x => k))
  (at level 61, m at next level, right associativity) : outcome_scope.
Notation "m ;;; k" := (obind m (fun _ => k))
  (at level 61, right associativity) : outcome_scope.

Definition isAborted {A} (o : Outcome A) : bool :=
  match o with
  | Returned _ => false
  | Aborted _ => true
  end.

(** ** The AST, as far as the header looks at it *)

Module AST.

(** Modelled from the spec: the expression classes are declared in
    swift/AST/Expr.h, not in this header. The subclasses of
    [ApplyExpr]: calls, the three operator invocations the header names,
    and the two implicit self applications. *)
Inductive ApplyExprKind : Set :=
| CallExpr
| PrefixUnaryExpr
| PostfixUnaryExpr
| BinaryExpr
| DotSyntaxCallExpr
| ConstructorRefCallExpr.

(** Modelled from the spec: expression-kind discrimination. The kinds
    the header tests for, the [ApplyExpr] family, and everything else. *)
Inductive ExprKind : Set :=
| UnresolvedMemberExpr
| TypeExpr
| DeclRefExpr
| UnresolvedDotExpr
| SubscriptExpr
| LoadExpr
| IfExpr
| OtherExpr
| ApplyKind (k : ApplyExprKind).

(** An expression node; [exprId] is its identity (its address). *)
Record Expr : Set := { exprId : N; exprKind : ExprKind }.

(** An [ApplyExpr] node: an expression statically known to be an
    application. *)
Record ApplyExpr : Set := { applyId : N; applyKind : ApplyExprKind }.

Definition isa_UnresolvedMemberExpr (e : Expr) : bool :=
  match exprKind e with UnresolvedMemberExpr => true | _ => false end.

Definition isa_TypeExpr (e : Expr) : bool :=
  match exprKind e with TypeExpr => true | _ => false end.

Definition isa_PrefixUnaryExpr (a : ApplyExpr) : bool :=
  match applyKind a with PrefixUnaryExpr => true | _ => false end.

Definition isa_PostfixUnaryExpr (a : ApplyExpr) : bool :=
  match applyKind a with PostfixUnaryExpr => true | _ => false end.

Definition isa_BinaryExpr (a : ApplyExpr) : bool :=
  match applyKind a with BinaryExpr => true | _ => false end.

(** [dyn_cast<ApplyExpr>(e)] for a non-null [e]. *)
Definition dyn_cast_ApplyExpr (e : Expr) : option ApplyExpr :=
  match exprKind e with
  | ApplyKind k => Some {| applyId := exprId e; applyKind := k |}
  | _ => None
  end.

End AST.
Import AST.

(** ** Requirements *)

(** Modelled from the spec: [RequirementKind] is declared outside this
    header. It tags the three requirement failures. *)
Inductive RequirementKind : Set :=
| RK_Conformance
| RK_Superclass
| RK_SameType.

(** The unsigned value a [RequirementKind] is stored as in a path
    element, read back by [static_cast<RequirementKind>(getValue2())].
    Only the injectivity of the numbering matters. *)
Definition RequirementKind_encode (k : RequirementKind) : N :=
  match k with
  | RK_Conformance => 0
  | RK_Superclass => 1
  | RK_SameType => 2
  end%N.

(** ** Constraint locators *)

Module ConstraintLocator.

(** Modelled from the spec: [ConstraintLocator] is declared in
    ConstraintLocator.h, not in this header. A locator is an
    anchor expression and a sequence of path elements, each with a kind
    and a payload. *)
Inductive PathElementKind : Set :=
| ApplyArgument
| ApplyFunction
| Member
| UnresolvedMember
| SubscriptMember
| TupleElement
| OptionalPayload
| KeyPathComponent
| OpenedGeneric
| TypeParameterRequirement
| ConditionalRequirement.

Definition PathElementKind_eqb (a b : PathElementKind) : bool :=
  match a, b with
  | ApplyArgument, ApplyArgument
  | ApplyFunction, ApplyFunction
  | Member, Member
  | UnresolvedMember, UnresolvedMember
  | SubscriptMember, SubscriptMember
  | TupleElement, TupleElement
  | OptionalPayload, OptionalPayload
  | KeyPathComponent, KeyPathComponent
  | OpenedGeneric, OpenedGeneric
  | TypeParameterRequirement, TypeParameterRequirement
  | ConditionalRequirement, ConditionalRequirement => true
  | _, _ => false
  end.

(** A path element: its kind and its two unsigned payload values. For
    the two requirement kinds the first value is the requirement index
    and the second the encoded [RequirementKind]. *)
Record PathElement : Set :=
  { getKind : PathElementKind; getValue : N; getValue2 : N }.

Definition isTypeParameterRequirement (e : PathElement) : bool :=
  PathElementKind_eqb (getKind e) TypeParameterRequirement.

Definition isConditionalRequirement (e : PathElement) : bool :=
  PathElementKind_eqb (getKind e) ConditionalRequirement.

Definition getTypeRequirementComponent (index : N) (k : RequirementKind)
  : PathElement :=
  {| getKind := TypeParameterRequirement;
     getValue := index;
     getValue2 := RequirementKind_encode k |}.

Definition getConditionalRequirementComponent (index : N)
  (k : RequirementKind) : PathElement :=
  {| getKind := ConditionalRequirement;
     getValue := index;
     getValue2 := RequirementKind_encode k |}.

(** A locator: an anchor expression and a path. Locators are handled by
    pointer; [locAddr] is the address, and two pointers are equal when
    the addresses are. *)
Record t : Set :=
  { locAddr : N; getAnchor : Expr; getPath : list PathElement }.

(** [a == b] on [ConstraintLocator *]. *)
Definition ptr_eqb (a b : option t) : bool :=
  match a, b with
  | None, None => true
  | Some x, Some y => N.eqb (locAddr x) (locAddr y)
  | _, _ => false
  end.

End ConstraintLocator.

(** [path.front()] and [path.back()] of an [ArrayRef]. *)
Definition front {A} (path : list A) : option A :=
  match path with
  | [] => None
  | x :: _ => Some x
  end.

Fixpoint back {A} (path : list A) : option A :=
  match path with
  | [] => None
  | [x] => Some x
  | _ :: rest => back rest
  end.

(** ** Solver state *)

Definition TypeRef := N.
Definition OverloadChoice := N.
Definition ProtocolConformance := N.
Definition GenericSignature := N.
Definition ValueDecl := N.

(** Modelled from the spec: declared in ConstraintSystem.h, not in this
    header; the fields are the ones the header reads.
    A record of the resolved-overload chain; [Previous] links to the
    record resolved just before this one. *)
Unset Elimination Schemes.
Inductive ResolvedOverloadSetListItem : Set :=
  MkResolvedOverload
    (Previous : option ResolvedOverloadSetListItem)
    (Locator : option ConstraintLocator.t)
    (Choice : OverloadChoice)
    (OpenedFullType : TypeRef)
    (ImpliedType : TypeRef).
Set Elimination Schemes.

Definition Previous (r : ResolvedOverloadSetListItem) :=
  match r with MkResolvedOverload p _ _ _ _ => p end.
Definition Locator (r : ResolvedOverloadSetListItem) :=
  match r with MkResolvedOverload _ l _ _ _ => l end.
Definition Choice (r : ResolvedOverloadSetListItem) :=
  match r with MkResolvedOverload _ _ c _ _ => c end.
Definition OpenedFullType (r : ResolvedOverloadSetListItem) :=
  match r with MkResolvedOverload _ _ _ t _ => t end.
Definition ImpliedType (r : ResolvedOverloadSetListItem) :=
  match r with MkResolvedOverload _ _ _ _ t => t end.

(** The chain from a record backwards, most recent first. *)
Fixpoint chainFrom (r : ResolvedOverloadSetListItem)
  : list ResolvedOverloadSetListItem :=
  match r with
  | MkResolvedOverload prev _ _ _ _ =>
      r :: match prev with
           | None => []
           | Some p => chainFrom p
           end
  end.

Definition chain (head : option ResolvedOverloadSetListItem)
  : list ResolvedOverloadSetListItem :=
  match head with
  | None => []
  | Some r => chainFrom r
  end.

(** ** The diagnostic sink *)

(** Modelled from the spec: the sink receives, in order, diagnostics made
    of a severity, an identifier and a source range. *)
Inductive DiagnosticKind : Set := DK_Error | DK_Warning | DK_Note.

(** An emitted diagnostic: its severity, its identifier in the message
    catalog, and the expression whose source range it points at. *)
Record Diagnostic : Set :=
  { diagKind : DiagnosticKind; diagID : N; diagAnchor : N }.

Definition Sink := list Diagnostic.

Definition isError (d : Diagnostic) : bool :=
  match diagKind d with DK_Error => true | _ => false end.

Definition isNote (d : Diagnostic) : bool :=
  match diagKind d with DK_Note => true | _ => false end.

Definition errorCount (ds : list Diagnostic) : nat :=
  length (filter isError ds).

Definition noteCount (ds : list Diagnostic) : nat :=
  length (filter isNote ds).

(** A member function that may emit diagnostics and may trip an
    assertion. *)
Definition M (A : Type) : Type := Sink -> Outcome (A * Sink).

Definition ret {A} (a : A) : M A := fun s => Returned (a, s).

Definition bind {A B} (m : M A) (k : A -> M B) : M B :=
  fun s =>
    match m s with
    | Returned (a, s') => k a s'
    | Aborted why => Aborted why
    end.

Definition lift {A} (o : Outcome A) : M A :=
  fun s =>
    match o with
    | Returned a => Returned (a, s)
    | Aborted why => Aborted why
    end.

Definition emit (d : Diagnostic) : M unit :=
  fun s => Returned (tt, s ++ [d]).

Declare Scope diag_scope.
Delimit Scope diag_scope with diag.
Notation "x <- m ;; k" := (bind m (fun x => k))
  (at level 61, m at next level, right associativity) : diag_scope.


(** ** The constraint system, as the diagnostics borrow it *)

(** Modelled from the spec: [ConstraintSystem] is declared outside this
    header. The solver state a diagnostic reads. [getResolvedOverloadSets] is the
    head of the resolved-overload chain. The other fields are the answers
    of the solver and of the declaration layer to the queries whose code
    is outside the header: the parent index of the expression being
    checked, the simplification of a locator to an anchor, the conformance
    a conditional requirement was checked against, and the generic
    signature and the declaration a requirement locator leads to. *)
Record ConstraintSystem : Type :=
  { getResolvedOverloadSets : option ResolvedOverloadSetListItem;
    parentIndex : Expr -> option Expr;
    simplifiedAnchor : ConstraintLocator.t -> Expr * bool;
    checkedConformance : ConstraintLocator.t -> ProtocolConformance;
    signatureFor : ConstraintLocator.t -> option GenericSignature;
    declRefFor : ConstraintLocator.t -> option ValueDecl }.

Record SelectedOverload : Set :=
  { choice : OverloadChoice;
    openedFullType : TypeRef;
    openedType : TypeRef }.

(** ** FailureDiagnostic *)

Module FailureDiagnostic.

Record t : Type :=
  { getParentExpr : option Expr;            (* E *)
    getConstraintSystem : ConstraintSystem; (* CS *)
    getLocator : ConstraintLocator.t;       (* Locator *)
    getRawAnchor : Expr;                    (* RawAnchor *)
    getAnchor : Expr;                       (* Anchor *)
    hasComplexLocator : bool }.             (* HasComplexLocator *)

(** Modelled from the spec: [computeAnchor] is declared in the header and
    defined elsewhere. It resolves the locator to the most specific
    expression and tells whether resolution stopped early; the anchor is
    never absent. *)
Definition computeAnchor (cs : ConstraintSystem)
  (locator : ConstraintLocator.t) : Expr * bool :=
  simplifiedAnchor cs locator.

(** The constructor. *)
Definition new (expr : option Expr) (cs : ConstraintSystem)
  (locator : ConstraintLocator.t) : t :=
  let '(anchor, complex) := computeAnchor cs locator in
  {| getParentExpr := expr;
     getConstraintSystem := cs;
     getLocator := locator;
     getRawAnchor := ConstraintLocator.getAnchor locator;
     getAnchor := anchor;
     hasComplexLocator := complex |}.

(** Modelled from the spec: [findParentExpr] is declared in the header
    and defined elsewhere. It delegates to the solver-provided parent
    index and is absent when the expression has no parent in the current
    expression tree. *)
Definition findParentExpr (self : t) (subExpr : Expr) : option Expr :=
  parentIndex (getConstraintSystem self) subExpr.

(** The [while] loop of [getResolvedOverload], entered at a non-null
    record. *)
Fixpoint getResolvedOverload_loop (resolvedOverload : ResolvedOverloadSetListItem)
  (locator : option ConstraintLocator.t)
  : option ResolvedOverloadSetListItem :=
  match resolvedOverload with
  | MkResolvedOverload previous loc _ _ _ =>
      if ConstraintLocator.ptr_eqb loc locator
      then Some resolvedOverload
      else match previous with
           | None => None
           | Some p => getResolvedOverload_loop p locator
           end
  end.

Definition getResolvedOverload (self : t)
  (locator : option ConstraintLocator.t)
  : option ResolvedOverloadSetListItem :=
  match getResolvedOverloadSets (getConstraintSystem self) with
  | None => None
  | Some resolvedOverload => getResolvedOverload_loop resolvedOverload locator
  end.

Definition getOverloadChoiceIfAvailable (self : t)
  (locator : option ConstraintLocator.t) : option SelectedOverload :=
  match getResolvedOverload self locator with
  | Some overload =>
      Some {| choice := Choice overload;
              openedFullType := OpenedFullType overload;
              openedType := ImpliedType overload |}
  | None => None
  end.

(** Modelled from the spec: [emitDiagnostic] is declared in the header
    and defined elsewhere. It forwards a diagnostic of the given severity
    and identifier, located at the resolved anchor, to the sink. *)
Definition emitDiagnostic (self : t) (kind : DiagnosticKind) (id : N)
  : M unit :=
  emit {| diagKind := kind; diagID := id;
          diagAnchor := exprId (getAnchor self) |}.

End FailureDiagnostic.

(** ** RequirementFailure *)

Module RequirementFailure.

Import ConstraintLocator.

Record t : Type :=
  { base : FailureDiagnostic.t;
    Conformance : option ProtocolConformance;
    Signature : option GenericSignature;
    AffectedDecl : option ValueDecl;
    Apply : option ApplyExpr }.

Definition getLocator (self : t) : ConstraintLocator.t :=
  FailureDiagnostic.getLocator (base self).

Definition getAnchor (self : t) : Expr :=
  FailureDiagnostic.getAnchor (base self).

Definition getRawAnchor (self : t) : Expr :=
  FailureDiagnostic.getRawAnchor (base self).

Definition isSome {A} (p : option A) : bool :=
  match p with Some _ => true | None => false end.

(** [isConditional()]: [bool(Conformance)]. *)
Definition isConditional (self : t) : bool := isSome (Conformance self).

(** Modelled from the spec: [getConformanceForConditionalReq] is declared
    in the header and defined elsewhere. The conformance record is present
    only if the requirement is conditional, that is when the locator ends
    in a conditional-requirement element; it is then the conformance the
    requirement comes from. *)
Definition getConformanceForConditionalReq (cs : ConstraintSystem)
  (locator : ConstraintLocator.t) : option ProtocolConformance :=
  match back (getPath locator) with
  | Some last =>
      if isConditionalRequirement last
      then Some (checkedConformance cs locator)
      else None
  | None => None
  end.

(** [getSignature] and [getDeclRef] are declared in the header and defined
    elsewhere; they are the declaration layer's answers for the locator.
    The header documents [Signature] as "the source of the requirement, if
    available", with one exception: a "failure associated with conditional
    requirement where underlying conformance is specialized". *)
Definition getSignature (cs : ConstraintSystem)
  (locator : ConstraintLocator.t) : option GenericSignature :=
  signatureFor cs locator.

Definition getDeclRef (cs : ConstraintSystem)
  (locator : ConstraintLocator.t) : option ValueDecl :=
  declRefFor cs locator.

(** The constructor: the member initialisers, the assertions in their
    order, then the search for the enclosing application. The locator is
    dereferenced by the base constructor, so it is not null here and
    [assert(locator)] holds. *)
Definition new (cs : ConstraintSystem) (expr : option Expr)
  (kind : RequirementKind) (locator : ConstraintLocator.t) : Outcome t :=
  let fd := FailureDiagnostic.new expr cs locator in
  let conformance := getConformanceForConditionalReq cs locator in
  let signature := getSignature cs locator in
  let affectedDecl := getDeclRef cs locator in
  let self (apply : option ApplyExpr) :=
    {| base := fd;
       Conformance := conformance;
       Signature := signature;
       AffectedDecl := affectedDecl;
       Apply := apply |} in
  (assert (isConditional (self None) || isSome signature)
          AssertConditionalOrSignature ;;;
   assert (isSome affectedDecl) AssertAffectedDecl ;;;
   let path := getPath locator in
   assert (negb (match path with [] => true | _ => false end))
          AssertPathNotEmpty ;;;
   match back path with
   | None => Aborted AssertPathNotEmpty
   | Some last =>
       assert (isTypeParameterRequirement last
               || isConditionalRequirement last)
              AssertLastIsRequirement ;;;
       assert (N.eqb (getValue2 last) (RequirementKind_encode kind))
              AssertKindMatches ;;;
       match expr with
       | None => Returned (self None)
       | Some _ =>
           match FailureDiagnostic.findParentExpr
                   fd (FailureDiagnostic.getRawAnchor fd) with
           | Some parentExpr => Returned (self (dyn_cast_ApplyExpr parentExpr))
           | None => Returned (self None)
           end
       end
   end)%outcome.

Definition getRequirementIndex (self : t) : Outcome N :=
  (let path := getPath (getLocator self) in
   assert (negb (match path with [] => true | _ => false end))
          AssertPathNotEmpty ;;;
   match back path with
   | None => Aborted AssertPathNotEmpty
   | Some requirementLoc =>
       assert (isTypeParameterRequirement requirementLoc
               || isConditionalRequirement requirementLoc)
              AssertLastIsRequirement ;;;
       Returned (getValue requirementLoc)
   end)%outcome.

Definition isOperator (apply : ApplyExpr) : bool :=
  isa_PrefixUnaryExpr apply || isa_PostfixUnaryExpr apply
  || isa_BinaryExpr apply.

(** The last line of [canDiagnoseFailure]:
    [Apply && (isOperator(Apply) || isa<TypeExpr>(anchor))]. *)
Definition deferredToArgument (self : t) : bool :=
  match Apply self with
  | Some apply => isOperator apply || isa_TypeExpr (getAnchor self)
  | None => false
  end.

Definition canDiagnoseFailure (self : t) : Outcome bool :=
  if isConditional self then Returned true
  else
    let anchor := getAnchor self in
    let final := Returned (negb (deferredToArgument self)) in
    if isa_UnresolvedMemberExpr anchor
    then
      match front (getPath (getLocator self)) with
      | None => Aborted AssertFrontOfEmptyPath
      | Some first =>
          if negb (PathElementKind_eqb (getKind first) UnresolvedMember)
          then Returned false
          else final
      end
    else final.

(** Modelled from the spec: the body of
    [RequirementFailure::diagnoseAsError] is defined outside the header.
    The suppression policy [canDiagnoseFailure] is evaluated before
    rendering; a suppressed failure emits nothing and returns false.
    [render] stands for the rendering itself, which picks one of the
    message templates of the concrete class. *)
Definition diagnoseAsError (render : t -> M bool) (self : t) : M bool :=
  (can <- lift (canDiagnoseFailure self) ;;
   if negb can then ret false else render self)%diag.

End RequirementFailure.

(** ** The three concrete requirement failures *)

Module MissingConformanceFailure.

Record t : Type :=
  { super : RequirementFailure.t;
    NonConformingType : TypeRef;
    ProtocolType : TypeRef }.

Definition new (expr : option Expr) (cs : ConstraintSystem)
  (locator : ConstraintLocator.t) (conformance : TypeRef * TypeRef)
  : Outcome t :=
  (rf <- RequirementFailure.new cs expr RK_Conformance locator ;;
   Returned {| super := rf;
               NonConformingType := fst conformance;
               ProtocolType := snd conformance |})%outcome.

Definition getLHS (self : t) : TypeRef := NonConformingType self.
Definition getRHS (self : t) : TypeRef := ProtocolType self.

End MissingConformanceFailure.

Module SameTypeRequirementFailure.

Record t : Type :=
  { super : RequirementFailure.t; LHS : TypeRef; RHS : TypeRef }.

Definition new (expr : option Expr) (cs : ConstraintSystem)
  (lhs rhs : TypeRef) (locator : ConstraintLocator.t) : Outcome t :=
  (rf <- RequirementFailure.new cs expr RK_SameType locator ;;
   Returned {| super := rf; LHS := lhs; RHS := rhs |})%outcome.

Definition getLHS (self : t) : TypeRef := LHS self.
Definition getRHS (self : t) : TypeRef := RHS self.

(** [SameTypeRequirementFailure] does not override [diagnoseAsError]: it
    runs the one of [RequirementFailure]. *)
Definition diagnoseAsError (render : RequirementFailure.t -> M bool)
  (self : t) : M bool :=
  RequirementFailure.diagnoseAsError render (super self).

End SameTypeRequirementFailure.

Module SuperclassRequirementFailure.

Record t : Type :=
  { super : RequirementFailure.t; LHS : TypeRef; RHS : TypeRef }.

Definition new (expr : option Expr) (cs : ConstraintSystem)
  (lhs rhs : TypeRef) (locator : ConstraintLocator.t) : Outcome t :=
  (rf <- RequirementFailure.new cs expr RK_Superclass locator ;;
   Returned {| super := rf; LHS := lhs; RHS := rhs |})%outcome.

Definition getLHS (self : t) : TypeRef := LHS self.
Definition getRHS (self : t) : TypeRef := RHS self.

End SuperclassRequirementFailure.

(** ** GenericArgumentsMismatchFailure *)

Module GenericArgumentsMismatchFailure.

Record t : Type :=
  { base : FailureDiagnostic.t;
    Actual : TypeRef;
    Required : TypeRef;
    Mismatches : list Z }.

Definition new (expr : option Expr) (cs : ConstraintSystem)
  (actual required : TypeRef) (mismatches : list Z)
  (locator : ConstraintLocator.t) : t :=
  {| base := FailureDiagnostic.new expr cs locator;
     Actual := actual;
     Required := required;
     Mismatches := mismatches |}.

Definition getActual (self : t) : TypeRef := Actual self.
Definition getRequired (self : t) : TypeRef := Required self.

Section Notes.

(** [addNoteForMismatch] is declared in the header and defined elsewhere:
    it tries to attach a note for one mismatch position and tells whether
    it did. *)
Variable addNoteForMismatch : t -> Z -> M bool.

(** The [for] loop of [addNotesForMismatches], from the current value of
    [result]. The right operand of [||] runs only when [result] is
    false. *)
Fixpoint addNotesForMismatches_loop (self : t) (positions : list Z)
  (result : bool) : M bool :=
  match positions with
  | [] => ret result
  | mismatchPosition :: rest =>
      (result' <- (if result then ret true
                   else addNoteForMismatch self mismatchPosition) ;;
       addNotesForMismatches_loop self rest result')%diag
  end.

Definition addNotesForMismatches (self : t) : M bool :=
  addNotesForMismatches_loop self (Mismatches self) false.

End Notes.

End GenericArgumentsMismatchFailure.

(** ** Restrictions recorded by the solver *)

Definition ConversionRestrictionKind := N.

Section Restrictions.

(** [Type::isEqual], declared with the types, outside this header. *)
Variable isEqual : TypeRef -> TypeRef -> bool.

(** [FailureDiagnostic::getRestrictionForType] over the solver's
    [ConstraintRestrictions]: the first entry whose first type is equal
    to [type] gives its second type and its restriction kind. *)
Fixpoint getRestrictionForType
  (ConstraintRestrictions :
     list (TypeRef * TypeRef * ConversionRestrictionKind))
  (type : TypeRef) : option (TypeRef * ConversionRestrictionKind) :=
  match ConstraintRestrictions with
  | [] => None
  | (first, second, kind) :: rest =>
      if isEqual first type
      then Some (second, kind)
      else getRestrictionForType rest type
  end.

End Restrictions.

(** ** AssignmentFailure::isLoadedLValue *)

Module AssignmentFailure.

(** Expressions as trees, as far as [isLoadedLValue] walks them: a
    [LoadExpr], an [IfExpr] with its condition and its two branches, a
    wrapper without semantics of its own (parentheses and the like), which
    [getSemanticsProvidingExpr] looks through, and any other
    expression. *)
Inductive ExprTree : Set :=
| TLoad (sub : ExprTree)
| TIf (condExpr thenExpr elseExpr : ExprTree)
| TWrapper (sub : ExprTree)
| TOther (kind : ExprKind).

Fixpoint getSemanticsProvidingExpr (expr : ExprTree) : ExprTree :=
  match expr with
  | TWrapper sub => getSemanticsProvidingExpr sub
  | _ => expr
  end.

(** [isLoadedLValue]. The first statement,
    [expr = expr->getSemanticsProvidingExpr()], is the [TWrapper] case. *)
Fixpoint isLoadedLValue (expr : ExprTree) : bool :=
  match expr with
  | TWrapper sub => isLoadedLValue sub
  | TLoad _ => true
  | TIf _ thenExpr elseExpr =>
      isLoadedLValue thenExpr && isLoadedLValue elseExpr
  | TOther _ => false
  end.

(** The alternatives an expression can evaluate to: the branches of its
    conditionals, through wrappers. *)
Fixpoint alternatives (expr : ExprTree) : list ExprTree :=
  match expr with
  | TWrapper sub => alternatives sub
  | TIf _ thenExpr elseExpr => alternatives thenExpr ++ alternatives elseExpr
  | _ => [expr]
  end.

Definition isa_LoadExpr (expr : ExprTree) : bool :=
  match expr with TLoad _ => true | _ => false end.

End AssignmentFailure.

(** * String utilities (include/swift/Basic/StringExtras.h) *)

Module StringRef.

(** [llvm::StringRef], from llvm/ADT/StringRef.h: a pointer into a
    character buffer and a length. [Data] is the address, [Chars] the
    characters it designates. *)
Record t : Set := { Data : N; Chars : String.string }.

Definition size (s : t) : N := N.of_nat (String.length (Chars s)).

Definition empty (s : t) : bool := N.eqb (size s) 0.

(** [operator==]: the same length and the same characters. *)
Definition eqb (a b : t) : bool := String.eqb (Chars a) (Chars b).

(** [slice(Start, End)]: both ends are clamped to the string, and an end
    before the start gives the empty string. *)
Definition slice (s : t) (start stop : N) : t :=
  let start := N.min start (size s) in
  let stop := N.min (N.max start stop) (size s) in
  {| Data := Data s + start;
     Chars := String.substring (N.to_nat start) (N.to_nat (stop - start))
                (Chars s) |}.

End StringRef.

Module WordIterator.

(** The value an [unsigned] holds after a conversion to it, and the value
    a 31-bit unsigned bit-field holds after a store. *)
Definition to_unsigned (n : N) : N := (n mod 2 ^ 32)%N.
Definition to_bits31 (n : N) : N := (n mod 2 ^ 31)%N.

Record t : Set :=
  { String : StringRef.t;
    Position : N;
    NextPosition : N;        (* mutable, 31 bits *)
    NextPositionValid : bool;
    PrevPosition : N;        (* mutable, 31 bits *)
    PrevPositionValid : bool }.

(** The constructor. The two cached positions are left uninitialised; they
    are not read while their flag is false. *)
Definition new (string : StringRef.t) (position : N) : t :=
  {| String := string;
     Position := to_unsigned position;
     NextPosition := 0;
     NextPositionValid := false;
     PrevPosition := 0;
     PrevPositionValid := false |}.

(** A call of a [const] member function defined elsewhere: it can change
    the [mutable] members only. *)
Definition callConst (f : t -> t) (self : t) : t :=
  {| String := String self;
     Position := Position self;
     NextPosition := to_bits31 (NextPosition (f self));
     NextPositionValid := NextPositionValid (f self);
     PrevPosition := to_bits31 (PrevPosition (f self));
     PrevPositionValid := PrevPositionValid (f self) |}.

Section Stepping.

(** [computeNextPosition] and [computePrevPosition] are declared in the
    header and defined elsewhere. *)
Variable computeNextPosition : t -> t.
Variable computePrevPosition : t -> t.

(** [operator*]: the word, and the iterator with its cache. *)
Definition deref (self : t) : StringRef.t * t :=
  let self :=
    if negb (NextPositionValid self)
    then callConst computeNextPosition self else self in
  (StringRef.slice (String self) (Position self) (NextPosition self), self).

(** [operator++()]. *)
Definition preincrement (self : t) : t :=
  let self :=
    if negb (NextPositionValid self)
    then callConst computeNextPosition self else self in
  {| String := String self;
     Position := NextPosition self;
     NextPosition := NextPosition self;
     NextPositionValid := false;
     PrevPosition := to_bits31 (Position self);
     PrevPositionValid := true |}.

(** [operator++(int)]: the copy taken before, and the iterator after. *)
Definition postincrement (self : t) : t * t :=
  let tmp := self in
  (tmp, preincrement self).

(** [operator--()]. *)
Definition predecrement (self : t) : t :=
  let self :=
    if negb (PrevPositionValid self)
    then callConst computePrevPosition self else self in
  {| String := String self;
     Position := PrevPosition self;
     NextPosition := to_bits31 (Position self);
     NextPositionValid := true;
     PrevPosition := PrevPosition self;
     PrevPositionValid := false |}.

(** [operator--(int)]. *)
Definition postdecrement (self : t) : t * t :=
  let tmp := self in
  (tmp, predecrement self).

End Stepping.

(** [operator==]; [None] when the assertion that both iterators walk the
    same string fails. *)
Definition eq (x y : t) : option bool :=
  if N.eqb (StringRef.Data (String x)) (StringRef.Data (String y))
     && N.eqb (StringRef.size (String x)) (StringRef.size (String y))
  then Some (N.eqb (Position x) (Position y))
  else None.

(** [operator!=]. *)
Definition neq (x y : t) : option bool :=
  match eq x y with
  | Some b => Some (negb b)
  | None => None
  end.

Definition getPosition (self : t) : N := Position self.

End WordIterator.

Module Words.

Record t : Set := { String : StringRef.t }.

Definition empty (self : t) : bool := StringRef.empty (String self).

Definition begin (self : t) : WordIterator.t :=
  WordIterator.new (String self) 0.

(** [end()]. *)
Definition end_ (self : t) : WordIterator.t :=
  WordIterator.new (String self) (StringRef.size (String self)).

End Words.

Definition getWords (string : StringRef.t) : Words.t :=
  {| Words.String := string |}.

Module OmissionTypeName.

Record t : Set :=
  { Name : StringRef.t; CollectionElement : StringRef.t }.

Definition empty (self : t) : bool := StringRef.empty (Name self).

(** [operator==]. *)
Definition eqb (lhs rhs : t) : bool :=
  StringRef.eqb (Name lhs) (Name rhs)
  && (StringRef.empty (CollectionElement lhs)
      || StringRef.empty (CollectionElement rhs)
      || StringRef.eqb (CollectionElement lhs) (CollectionElement rhs)).

(** [operator!=]. *)
Definition neqb (lhs rhs : t) : bool := negb (eqb lhs rhs).

End OmissionTypeName.

(** Some names to run the string utilities on. *)
Module Names.

Import Stdlib.Strings.String.
Local Open Scope string_scope.

Definition camelCase : StringRef.t :=
  {| StringRef.Data := 4096; StringRef.Chars := "camelCase" |}.

Definition camel : String.string := "camel".

Definition NSArray : StringRef.t :=
  {| StringRef.Data := 8192; StringRef.Chars := "NSArray" |}.

Definition NSString : StringRef.t :=
  {| StringRef.Data := 8200; StringRef.Chars := "NSString" |}.

Definition NSNumber : StringRef.t :=
  {| StringRef.Data := 8210; StringRef.Chars := "NSNumber" |}.

(** [StringRef()]. *)
Definition none : StringRef.t :=
  {| StringRef.Data := 0; StringRef.Chars := "" |}.

(** A stand-in for [computeNextPosition]: words of five characters. *)
Definition skipFive (it : WordIterator.t) : WordIterator.t :=
  {| WordIterator.String := WordIterator.String it;
     WordIterator.Position := WordIterator.Position it;
     WordIterator.NextPosition := WordIterator.Position it + 5;
     WordIterator.NextPositionValid := true;
     WordIterator.PrevPosition := WordIterator.PrevPosition it;
     WordIterator.PrevPositionValid := WordIterator.PrevPositionValid it |}.

End Names.

(** ** More vocabulary *)

(** Every position of the list is tried in turn from sink [s], none
    attaches a note, and the sink ends as [s']. *)
Inductive noneAttached
  (addNoteForMismatch : GenericArgumentsMismatchFailure.t -> Z -> M bool)
  (self : GenericArgumentsMismatchFailure.t)
  : list Z -> Sink -> Sink -> Prop :=
| noneAttached_nil s : noneAttached addNoteForMismatch self [] s s
| noneAttached_cons position rest s s1 s2 :
    addNoteForMismatch self position s = Returned (false, s1) ->
    noneAttached addNoteForMismatch self rest s1 s2 ->
    noneAttached addNoteForMismatch self (position :: rest) s s2.

(** * The vocabulary of the properties *)

(** The construction precondition of a requirement failure of kind
    [kind]: the path is not empty and its last element is a
    type-parameter-requirement or conditional-requirement element that
    encodes [kind]. *)
Definition requirementLocatorOK (kind : RequirementKind)
  (locator : ConstraintLocator.t) : bool :=
  match back (ConstraintLocator.getPath locator) with
  | Some last =>
      (ConstraintLocator.isTypeParameterRequirement last
       || ConstraintLocator.isConditionalRequirement last)
      && N.eqb (ConstraintLocator.getValue2 last)
               (RequirementKind_encode kind)
  | None => false
  end.

(** A record of the chain is a match for the queried locator. *)
Definition matches (locator : option ConstraintLocator.t)
  (r : ResolvedOverloadSetListItem) : bool :=
  ConstraintLocator.ptr_eqb (Locator r) locator.

(** Modelled from the spec: the body of [addNoteForMismatch] is defined
    outside the header. A call that returns true has attached one note,
    a call that returns false none. *)
Definition attachesNoteWhenTrue {T} (f : T -> Z -> M bool) : Prop :=
  forall self position s r s',
    f self position s = Returned (r, s') ->
    exists new, s' = s ++ new /\ noteCount new = if r then 1 else 0.

(** Induction along the [Previous] links. *)
Fixpoint ResolvedOverloadSetListItem_chain_ind
  (P : ResolvedOverloadSetListItem -> Prop)
  (step : forall previous loc c t1 t2,
      match previous with
      | None => True
      | Some p => P p
      end ->
      P (MkResolvedOverload previous loc c t1 t2))
  (r : ResolvedOverloadSetListItem) : P r :=
  match r with
  | MkResolvedOverload previous loc c t1 t2 =>
      step previous loc c t1 t2
        (match previous with
         | None => I
         | Some p => ResolvedOverloadSetListItem_chain_ind P step p
         end)
  end.

(** * A small solver snapshot

    The expression [lhs + rhs] with a generic operator, a call
    [Foo(arg)] on a type reference, and an implicit member [.foo(x)];
    used to run the definitions. *)

Module Snapshot.

Import ConstraintLocator.
Local Open Scope N_scope.

Definition binaryExpr : Expr := {| exprId := 1; exprKind := ApplyKind BinaryExpr |}.
Definition operatorRef : Expr := {| exprId := 2; exprKind := DeclRefExpr |}.
Definition callExpr : Expr := {| exprId := 3; exprKind := ApplyKind CallExpr |}.
Definition typeRef : Expr := {| exprId := 4; exprKind := TypeExpr |}.
Definition memberExpr : Expr := {| exprId := 5; exprKind := UnresolvedMemberExpr |}.

Definition element (k : PathElementKind) : PathElement :=
  {| getKind := k; getValue := 0; getValue2 := 0 |}.

(** The second requirement of the operator's signature, a same-type
    one. *)
Definition operatorLocator : ConstraintLocator.t :=
  {| locAddr := 100; getAnchor := operatorRef;
     getPath := [element OpenedGeneric;
                 getTypeRequirementComponent 1 RK_SameType] |}.

(** A conditional requirement of a conformance the operator needs. *)
Definition conditionalLocator : ConstraintLocator.t :=
  {| locAddr := 101; getAnchor := operatorRef;
     getPath := [element OpenedGeneric;
                 getTypeRequirementComponent 0 RK_Conformance;
                 getConditionalRequirementComponent 3 RK_Conformance] |}.

(** The type reference [Foo] of [Foo(arg)]. *)
Definition typeLocator : ConstraintLocator.t :=
  {| locAddr := 102; getAnchor := typeRef;
     getPath := [element OpenedGeneric;
                 getTypeRequirementComponent 0 RK_Superclass] |}.

(** [.foo(x)], opened through the member lookup and through the
    contextual type. *)
Definition memberLocator : ConstraintLocator.t :=
  {| locAddr := 103; getAnchor := memberExpr;
     getPath := [element UnresolvedMember; element OpenedGeneric;
                 getTypeRequirementComponent 0 RK_Conformance] |}.

Definition contextualLocator : ConstraintLocator.t :=
  {| locAddr := 104; getAnchor := memberExpr;
     getPath := [element OpenedGeneric;
                 getTypeRequirementComponent 0 RK_Conformance] |}.

(** A locator that does not end in a requirement. *)
Definition argumentLocator : ConstraintLocator.t :=
  {| locAddr := 105; getAnchor := callExpr;
     getPath := [element ApplyArgument] |}.

Definition emptyLocator : ConstraintLocator.t :=
  {| locAddr := 106; getAnchor := callExpr; getPath := [] |}.

Definition overloads : ResolvedOverloadSetListItem :=
  MkResolvedOverload
    (Some (MkResolvedOverload
       (Some (MkResolvedOverload None (Some operatorLocator) 21 31 41))
       (Some memberLocator) 22 32 42))
    (Some operatorLocator) 23 33 43.

Definition cs : ConstraintSystem :=
  {| getResolvedOverloadSets := Some overloads;
     parentIndex := fun e =>
       match exprId e with
       | 2%N => Some binaryExpr
       | 4%N => Some callExpr
       | _ => None
       end;
     simplifiedAnchor := fun l => (getAnchor l, false);
     checkedConformance := fun _ => 7%N;
     signatureFor := fun _ => Some 9%N;
     declRefFor := fun _ => Some 11%N |}.

(** A rendering that emits one error and one note. *)
Definition render (rf : RequirementFailure.t) : M bool :=
  (_ <- FailureDiagnostic.emitDiagnostic (RequirementFailure.base rf) DK_Error 1 ;;
   _ <- FailureDiagnostic.emitDiagnostic (RequirementFailure.base rf) DK_Note 2 ;;
   ret true)%diag.

(** [F<Bool, Bool, Bool>] used where [F<Int, Int, Int>] is required:
    all three positions differ. A note can be attached for a position only
    if its generic parameter has a source location; here every parameter
    but the first has one. *)
Definition mismatch : GenericArgumentsMismatchFailure.t :=
  GenericArgumentsMismatchFailure.new (Some callExpr) cs 51 52
    [0%Z; 1%Z; 2%Z] argumentLocator.

Definition addNoteForMismatch (self : GenericArgumentsMismatchFailure.t)
  (position : Z) : M bool :=
  if (position <=? 0)%Z then ret false
  else
    (_ <- FailureDiagnostic.emitDiagnostic
            (GenericArgumentsMismatchFailure.base self) DK_Note
            (Z.to_N position) ;;
     ret true)%diag.

End Snapshot.

(** * Properties *)

(** ** The resolved-overload chain *)

Lemma getResolvedOverload_loop_find r locator :
  FailureDiagnostic.getResolvedOverload_loop r locator
  = find (matches locator) (chainFrom r).
Proof.
  induction r as [previous loc c t1 t2 IH]
    using ResolvedOverloadSetListItem_chain_ind.
  cbn [FailureDiagnostic.getResolvedOverload_loop chainFrom find].
  unfold matches at 1. cbn [Locator].
  destruct (ConstraintLocator.ptr_eqb loc locator); [reflexivity|].
  destruct previous as [p|]; [exact IH | reflexivity].
Qed.

Lemma getResolvedOverload_loop_Some r0 locator r :
  FailureDiagnostic.getResolvedOverload_loop r0 locator = Some r ->
  matches locator r = true /\
  exists newer,
    chainFrom r0 = newer ++ chainFrom r /\
    forall x, In x newer -> matches locator x = false.
Proof.
  induction r0 as [previous loc c t1 t2 IH]
    using ResolvedOverloadSetListItem_chain_ind.
  cbn [FailureDiagnostic.getResolvedOverload_loop].
  destruct (ConstraintLocator.ptr_eqb loc locator) eqn:Hloc.
  - intros [= <-]. split; [exact Hloc|].
    exists []. split; [reflexivity | intros x []].
  - destruct previous as [p|]; [|discriminate].
    intros Hp. destruct (IH Hp) as [Hm [newer [Hchain Hnewer]]].
    split; [exact Hm|].
    exists (MkResolvedOverload (Some p) loc c t1 t2 :: newer). split.
    + cbn [chainFrom app]. now rewrite Hchain.
    + intros x [<- | Hx]; [exact Hloc | now apply Hnewer].
Qed.

(** C8. [getResolvedOverload(locator)] walks the resolved-overload chain
    from the most recently resolved record along the [Previous] links and
    returns the first record whose locator is pointer-equal to the queried
    one: every record resolved after the returned one has another locator.
    It returns null exactly when no record of the chain matches. *)
Theorem getResolvedOverload_first_match
  (self : FailureDiagnostic.t) (locator : option ConstraintLocator.t) :
  let records :=
    chain (getResolvedOverloadSets
             (FailureDiagnostic.getConstraintSystem self)) in
  FailureDiagnostic.getResolvedOverload self locator
  = find (matches locator) records
  /\ (forall r,
         FailureDiagnostic.getResolvedOverload self locator = Some r ->
         ConstraintLocator.ptr_eqb (Locator r) locator = true /\
         exists newer,
           records = newer ++ chainFrom r /\
           forall x, In x newer ->
                     ConstraintLocator.ptr_eqb (Locator x) locator = false)
  /\ (FailureDiagnostic.getResolvedOverload self locator = None <->
      forall x, In x records ->
                ConstraintLocator.ptr_eqb (Locator x) locator = false).
Proof.
  unfold FailureDiagnostic.getResolvedOverload.
  destruct (getResolvedOverloadSets
              (FailureDiagnostic.getConstraintSystem self)) as [head|];
    cbn [chain].
  - split; [apply getResolvedOverload_loop_find|]. split.
    + intros r Hr. now apply getResolvedOverload_loop_Some.
    + rewrite getResolvedOverload_loop_find. split.
      * intros Hnone x Hx. exact (find_none _ _ Hnone x Hx).
      * intros Hall.
        destruct (find (matches locator) (chainFrom head)) as [r|] eqn:Hf;
          [|reflexivity].
        apply find_some in Hf. destruct Hf as [Hin Hm].
        unfold matches in Hm. rewrite (Hall r Hin) in Hm. discriminate.
  - split; [reflexivity|]. split.
    + intros r [=].
    + split; [intros _ x [] | reflexivity].
Qed.

(** ** Requirement failures *)

Import ConstraintLocator.

Ltac destruct_assert H :=
  match type of H with
  | context [assert ?c ?why] =>
      let E := fresh "Hassert" in
      destruct c eqn:E; cbn [assert obind] in H; [|discriminate H]
  end.

(** What a successful construction establishes. *)
Lemma RequirementFailure_new_Returned cs expr kind locator rf :
  RequirementFailure.new cs expr kind locator = Returned rf ->
  RequirementFailure.base rf = FailureDiagnostic.new expr cs locator
  /\ RequirementFailure.Conformance rf
     = RequirementFailure.getConformanceForConditionalReq cs locator
  /\ RequirementFailure.Signature rf = signatureFor cs locator
  /\ (RequirementFailure.isConditional rf
      || RequirementFailure.isSome (RequirementFailure.Signature rf)) = true
  /\ RequirementFailure.isSome (RequirementFailure.AffectedDecl rf) = true
  /\ (exists last,
        back (getPath locator) = Some last
        /\ (isTypeParameterRequirement last
            || isConditionalRequirement last) = true
        /\ getValue2 last = RequirementKind_encode kind)
  /\ RequirementFailure.Apply rf
     = match expr with
       | None => None
       | Some _ =>
           match parentIndex cs (getAnchor locator) with
           | Some parentExpr => dyn_cast_ApplyExpr parentExpr
           | None => None
           end
       end.
Proof.
  unfold RequirementFailure.new. intros H.
  destruct_assert H. destruct_assert H. destruct_assert H.
  destruct (back (getPath locator)) as [last|] eqn:Hback; [|discriminate H].
  destruct_assert H. destruct_assert H.
  apply N.eqb_eq in Hassert3.
  assert (Hfd : FailureDiagnostic.getRawAnchor
                  (FailureDiagnostic.new expr cs locator)
                = getAnchor locator).
  { unfold FailureDiagnostic.new.
    now destruct (FailureDiagnostic.computeAnchor cs locator). }
  assert (Hcs : FailureDiagnostic.getConstraintSystem
                  (FailureDiagnostic.new expr cs locator) = cs).
  { unfold FailureDiagnostic.new.
    now destruct (FailureDiagnostic.computeAnchor cs locator). }
  unfold FailureDiagnostic.findParentExpr in H. rewrite Hfd, Hcs in H.
  destruct expr as [e|].
  - destruct (parentIndex cs (getAnchor locator)) as [parentExpr|];
      injection H as <-; cbn; repeat split; eauto.
  - injection H as <-; cbn; repeat split; eauto.
Qed.

Lemma back_Some_front {A} (path : list A) (last : A) :
  back path = Some last -> exists first rest, path = first :: rest.
Proof. destruct path as [|x xs]; [discriminate | eauto]. Qed.

(** C4. A conditional requirement failure, one whose conformance record
    is present, can always be diagnosed: [canDiagnoseFailure] returns
    true whatever the anchor, the locator's path and the enclosing
    application are. *)
Theorem canDiagnoseFailure_conditional (rf : RequirementFailure.t) :
  RequirementFailure.isConditional rf = true ->
  RequirementFailure.canDiagnoseFailure rf = Returned true.
Proof.
  intros Hcond. unfold RequirementFailure.canDiagnoseFailure.
  now rewrite Hcond.
Qed.

Lemma canDiagnoseFailure_conditional_witness :
  exists rf,
    RequirementFailure.new Snapshot.cs (Some Snapshot.binaryExpr)
      RK_Conformance Snapshot.conditionalLocator = Returned rf
    /\ RequirementFailure.deferredToArgument rf = true
    /\ RequirementFailure.canDiagnoseFailure rf = Returned true.
Proof.
  eexists. split; [reflexivity|]. split; [reflexivity|].
  apply canDiagnoseFailure_conditional. reflexivity.
Defined.

(** C2. A non-conditional requirement failure that sits inside an
    application is not diagnosed here when that application is a prefix,
    postfix or binary operator invocation, or when the resolved anchor is
    a bare type reference: [canDiagnoseFailure] returns false, and
    [diagnoseAsError] then returns false and leaves the sink as it was.
    This holds in particular for a same-type requirement failure. *)
Theorem canDiagnoseFailure_defers_operator_and_type
  cs expr kind locator (rf : RequirementFailure.t) (apply : ApplyExpr) :
  RequirementFailure.new cs expr kind locator = Returned rf ->
  RequirementFailure.isConditional rf = false ->
  RequirementFailure.Apply rf = Some apply ->
  (RequirementFailure.isOperator apply
   || isa_TypeExpr (RequirementFailure.getAnchor rf)) = true ->
  RequirementFailure.canDiagnoseFailure rf = Returned false
  /\ (forall render s,
         RequirementFailure.diagnoseAsError render rf s
         = Returned (false, s))
  /\ (forall lhs rhs render s,
         SameTypeRequirementFailure.diagnoseAsError render
           {| SameTypeRequirementFailure.super := rf;
              SameTypeRequirementFailure.LHS := lhs;
              SameTypeRequirementFailure.RHS := rhs |} s
         = Returned (false, s)).
Proof.
  intros Hnew Hcond Happly Hdefer.
  assert (Hcan : RequirementFailure.canDiagnoseFailure rf = Returned false).
  { apply RequirementFailure_new_Returned in Hnew.
    destruct Hnew as (Hbase & _ & _ & _ & _ & (last & Hback & _) & _).
    apply back_Some_front in Hback. destruct Hback as (first & rest & Hpath).
    unfold RequirementFailure.canDiagnoseFailure.
    rewrite Hcond.
    assert (Hd : RequirementFailure.deferredToArgument rf = true).
    { unfold RequirementFailure.deferredToArgument. now rewrite Happly. }
    rewrite Hd. cbn [negb].
    unfold RequirementFailure.getLocator. rewrite Hbase.
    unfold FailureDiagnostic.new.
    destruct (FailureDiagnostic.computeAnchor cs locator) as [anchor complex].
    cbn [FailureDiagnostic.getLocator]. rewrite Hpath. cbn [front].
    destruct (isa_UnresolvedMemberExpr _); [|reflexivity].
    now destruct (negb _). }
  split; [exact Hcan|].
  assert (Herr : forall render s,
             RequirementFailure.diagnoseAsError render rf s
             = Returned (false, s)).
  { intros render s. unfold RequirementFailure.diagnoseAsError, bind, lift.
    now rewrite Hcan. }
  split; [exact Herr|].
  intros lhs rhs render s. apply Herr.
Qed.

Lemma canDiagnoseFailure_defers_operator_and_type_witness :
  exists f,
    SameTypeRequirementFailure.new (Some Snapshot.binaryExpr) Snapshot.cs
      5%N 6%N Snapshot.operatorLocator = Returned f
    /\ RequirementFailure.canDiagnoseFailure
         (SameTypeRequirementFailure.super f) = Returned false
    /\ SameTypeRequirementFailure.diagnoseAsError Snapshot.render f []
       = Returned (false, []).
Proof.
  eexists. split; [reflexivity|].
  pose proof (canDiagnoseFailure_defers_operator_and_type
                Snapshot.cs (Some Snapshot.binaryExpr) RK_SameType
                Snapshot.operatorLocator
                (apply := {| applyId := 1; applyKind := BinaryExpr |})
                eq_refl eq_refl eq_refl eq_refl) as (Hcan & _ & Hsame).
  split; [exact Hcan|]. exact (Hsame 5%N 6%N Snapshot.render []).
Defined.

(** C3. For a non-conditional requirement failure whose resolved anchor
    is an unresolved-member expression, the locator's path has a first
    element; [canDiagnoseFailure] returns false unless that element is an
    unresolved-member lookup step, and when it is one the answer is left
    to the remaining check on the enclosing application. *)
Theorem canDiagnoseFailure_unresolved_member
  cs expr kind locator (rf : RequirementFailure.t) :
  RequirementFailure.new cs expr kind locator = Returned rf ->
  RequirementFailure.isConditional rf = false ->
  isa_UnresolvedMemberExpr (RequirementFailure.getAnchor rf) = true ->
  exists first rest,
    getPath (RequirementFailure.getLocator rf) = first :: rest
    /\ (getKind first <> UnresolvedMember ->
        RequirementFailure.canDiagnoseFailure rf = Returned false)
    /\ (getKind first = UnresolvedMember ->
        RequirementFailure.canDiagnoseFailure rf
        = Returned (negb (RequirementFailure.deferredToArgument rf))).
Proof.
  intros Hnew Hcond Hanchor.
  apply RequirementFailure_new_Returned in Hnew.
  destruct Hnew as (Hbase & _ & _ & _ & _ & (last & Hback & _) & _).
  apply back_Some_front in Hback. destruct Hback as (first & rest & Hpath).
  assert (Hloc : getPath (RequirementFailure.getLocator rf) = first :: rest).
  { unfold RequirementFailure.getLocator. rewrite Hbase.
    unfold FailureDiagnostic.new.
    now destruct (FailureDiagnostic.computeAnchor cs locator). }
  exists first, rest. split; [exact Hloc|].
  unfold RequirementFailure.canDiagnoseFailure.
  rewrite Hcond, Hanchor, Hloc. cbn [front].
  split; intros Hkind.
  - destruct (getKind first); try congruence; reflexivity.
  - now rewrite Hkind.
Qed.

Lemma canDiagnoseFailure_unresolved_member_witness :
  (exists rf,
      RequirementFailure.new Snapshot.cs (Some Snapshot.callExpr)
        RK_Conformance Snapshot.contextualLocator = Returned rf
      /\ RequirementFailure.canDiagnoseFailure rf = Returned false)
  /\ (exists rf,
         RequirementFailure.new Snapshot.cs (Some Snapshot.callExpr)
           RK_Conformance Snapshot.memberLocator = Returned rf
         /\ RequirementFailure.canDiagnoseFailure rf = Returned true).
Proof.
  split; eexists; (split; [reflexivity|]).
  - destruct (canDiagnoseFailure_unresolved_member
                Snapshot.cs (Some Snapshot.callExpr) RK_Conformance
                Snapshot.contextualLocator eq_refl eq_refl eq_refl)
      as (first & rest & Hpath & Hother & _).
    apply Hother. injection Hpath as <- _. discriminate.
  - destruct (canDiagnoseFailure_unresolved_member
                Snapshot.cs (Some Snapshot.callExpr) RK_Conformance
                Snapshot.memberLocator eq_refl eq_refl eq_refl)
      as (first & rest & Hpath & _ & Hmember).
    rewrite Hmember; [reflexivity|]. now injection Hpath as <- _.
Defined.

(** C10. A requirement failure constructed without an enclosing
    expression has no [Apply]: the parent lookup is skipped. The check on
    the enclosing application then never suppresses its diagnostic, so
    [canDiagnoseFailure] can only return false through the
    unresolved-member check. Conversely, suppression by the application
    check needs a non-null enclosing expression at construction. *)
Theorem RequirementFailure_without_expr_keeps_Apply_null
  cs expr kind locator (rf : RequirementFailure.t) :
  RequirementFailure.new cs expr kind locator = Returned rf ->
  (expr = None ->
   RequirementFailure.Apply rf = None
   /\ RequirementFailure.deferredToArgument rf = false
   /\ (RequirementFailure.canDiagnoseFailure rf = Returned false ->
       RequirementFailure.isConditional rf = false
       /\ isa_UnresolvedMemberExpr (RequirementFailure.getAnchor rf) = true
       /\ exists first,
           front (getPath (RequirementFailure.getLocator rf)) = Some first
           /\ getKind first <> UnresolvedMember))
  /\ (RequirementFailure.deferredToArgument rf = true -> expr <> None).
Proof.
  intros Hnew.
  pose proof (RequirementFailure_new_Returned _ _ _ _ Hnew)
    as (_ & _ & _ & _ & _ & _ & Happly).
  assert (Hnull : expr = None ->
                  RequirementFailure.deferredToArgument rf = false).
  { intros ->. unfold RequirementFailure.deferredToArgument.
    now rewrite Happly. }
  split.
  - intros Hexpr. split; [now rewrite Happly, Hexpr|].
    split; [now apply Hnull|].
    unfold RequirementFailure.canDiagnoseFailure.
    rewrite (Hnull Hexpr). cbn [negb].
    destruct (RequirementFailure.isConditional rf); [discriminate|].
    destruct (isa_UnresolvedMemberExpr _); [|discriminate].
    destruct (front _) as [first|]; [|discriminate].
    destruct (PathElementKind_eqb (getKind first) UnresolvedMember) eqn:Hk;
      cbn [negb]; [discriminate|].
    intros _. repeat split; trivial. exists first. split; [reflexivity|].
    intros Heq. rewrite Heq in Hk. discriminate.
  - intros Hdefer ->. rewrite (Hnull eq_refl) in Hdefer. discriminate.
Qed.

Lemma RequirementFailure_without_expr_keeps_Apply_null_witness :
  exists rf,
    RequirementFailure.new Snapshot.cs None RK_SameType
      Snapshot.operatorLocator = Returned rf
    /\ RequirementFailure.Apply rf = None
    /\ RequirementFailure.canDiagnoseFailure rf = Returned true.
Proof.
  eexists. split; [reflexivity|].
  destruct (RequirementFailure_without_expr_keeps_Apply_null
              Snapshot.cs None RK_SameType Snapshot.operatorLocator eq_refl)
    as (Hnull & _).
  destruct (Hnull eq_refl) as (Happly & _ & _).
  split; [exact Happly | reflexivity].
Defined.

(** C5. Constructing a requirement failure, directly or through one of
    the three concrete classes, needs a locator whose path is not empty
    and ends in a type-parameter-requirement or conditional-requirement
    element encoding the kind constructed; on any other locator the
    constructor stops on an assertion. *)
Theorem RequirementFailure_new_requires_requirement_locator
  cs expr locator :
  (forall kind,
      requirementLocatorOK kind locator = false ->
      isAborted (RequirementFailure.new cs expr kind locator) = true)
  /\ (forall kind rf,
         RequirementFailure.new cs expr kind locator = Returned rf ->
         getPath locator <> []
         /\ exists last,
             back (getPath locator) = Some last
             /\ (isTypeParameterRequirement last
                 || isConditionalRequirement last) = true
             /\ getValue2 last = RequirementKind_encode kind)
  /\ (forall conformance,
         requirementLocatorOK RK_Conformance locator = false ->
         isAborted (MissingConformanceFailure.new expr cs locator
                      conformance) = true)
  /\ (forall lhs rhs,
         requirementLocatorOK RK_SameType locator = false ->
         isAborted (SameTypeRequirementFailure.new expr cs lhs rhs
                      locator) = true)
  /\ (forall lhs rhs,
         requirementLocatorOK RK_Superclass locator = false ->
         isAborted (SuperclassRequirementFailure.new expr cs lhs rhs
                      locator) = true).
Proof.
  assert (Hpos : forall kind rf,
             RequirementFailure.new cs expr kind locator = Returned rf ->
             getPath locator <> []
             /\ exists last,
                 back (getPath locator) = Some last
                 /\ (isTypeParameterRequirement last
                     || isConditionalRequirement last) = true
                 /\ getValue2 last = RequirementKind_encode kind).
  { intros kind rf Hnew.
    apply RequirementFailure_new_Returned in Hnew.
    destruct Hnew as (_ & _ & _ & _ & _ & (last & Hback & Hreq & Hkind) & _).
    split; [|now exists last].
    intros Hempty. rewrite Hempty in Hback. discriminate. }
  assert (Hneg : forall kind,
             requirementLocatorOK kind locator = false ->
             isAborted (RequirementFailure.new cs expr kind locator) = true).
  { intros kind Hbad.
    destruct (RequirementFailure.new cs expr kind locator) as [rf|why] eqn:Hnew;
      [|reflexivity].
    destruct (Hpos kind rf Hnew) as (_ & last & Hback & Hreq & Hkind).
    unfold requirementLocatorOK in Hbad.
    rewrite Hback, Hreq, Hkind, N.eqb_refl in Hbad. discriminate. }
  split; [exact Hneg|]. split; [exact Hpos|].
  repeat split; intros; 
    [ unfold MissingConformanceFailure.new
    | unfold SameTypeRequirementFailure.new
    | unfold SuperclassRequirementFailure.new ];
    match goal with
    | H : requirementLocatorOK ?k _ = false |- _ =>
        specialize (Hneg k H);
        destruct (RequirementFailure.new cs expr k locator);
        [discriminate | reflexivity]
    end.
Qed.

Lemma RequirementFailure_new_requires_requirement_locator_witness :
  RequirementFailure.new Snapshot.cs (Some Snapshot.callExpr)
    RK_Conformance Snapshot.emptyLocator = Aborted AssertPathNotEmpty
  /\ RequirementFailure.new Snapshot.cs (Some Snapshot.callExpr)
       RK_Conformance Snapshot.argumentLocator
     = Aborted AssertLastIsRequirement
  /\ isAborted (SameTypeRequirementFailure.new (Some Snapshot.callExpr)
                  Snapshot.cs 5%N 6%N Snapshot.memberLocator) = true
  /\ requirementLocatorOK RK_SameType Snapshot.operatorLocator = true.
Proof.
  split; [reflexivity|]. split; [reflexivity|]. split.
  - destruct (RequirementFailure_new_requires_requirement_locator
                Snapshot.cs (Some Snapshot.callExpr) Snapshot.memberLocator)
      as (_ & _ & _ & Hsame & _).
    apply Hsame. reflexivity.
  - reflexivity.
Defined.

(** X15. Every constructed requirement failure holds at least one of the
    two: its conformance record (the conditional case) or its generic
    signature; a non-conditional failure always has its signature, and a
    failure without signature is conditional. *)
Theorem RequirementFailure_conformance_or_signature
  cs expr kind locator (rf : RequirementFailure.t) :
  RequirementFailure.new cs expr kind locator = Returned rf ->
  (RequirementFailure.isSome (RequirementFailure.Conformance rf)
   || RequirementFailure.isSome (RequirementFailure.Signature rf)) = true
  /\ (RequirementFailure.isConditional rf = false ->
      exists signature, RequirementFailure.Signature rf = Some signature)
  /\ (RequirementFailure.Signature rf = None ->
      RequirementFailure.isConditional rf = true).
Proof.
  intros Hnew.
  apply RequirementFailure_new_Returned in Hnew.
  destruct Hnew as (_ & _ & _ & Hone & _).
  unfold RequirementFailure.isConditional in *.
  split; [exact Hone|]. split.
  - intros Hcond. rewrite Hcond in Hone.
    destruct (RequirementFailure.Signature rf) as [signature|];
      [now exists signature | discriminate].
  - intros Hsig. rewrite Hsig in Hone.
    now rewrite orb_false_r in Hone.
Qed.

Lemma RequirementFailure_conformance_or_signature_witness :
  exists rf,
    RequirementFailure.new Snapshot.cs (Some Snapshot.binaryExpr)
      RK_SameType Snapshot.operatorLocator = Returned rf
    /\ RequirementFailure.Conformance rf = None
    /\ RequirementFailure.Signature rf = Some 9%N.
Proof.
  eexists. split; [reflexivity|]. split; [reflexivity|].
  destruct (RequirementFailure_conformance_or_signature
              Snapshot.cs (Some Snapshot.binaryExpr) RK_SameType
              Snapshot.operatorLocator eq_refl)
    as (_ & Hsignature & _).
  destruct (Hsignature eq_refl) as (signature & Hsig).
  rewrite Hsig. f_equal. vm_compute in Hsig. now injection Hsig as <-.
Defined.

(** C7. For a requirement failure built over a locator whose last path
    element is a conditional-requirement element with index [i],
    [getRequirementIndex()] returns [i] and [isConditional()] is true. *)
Theorem getRequirementIndex_conditional
  cs expr kind locator (rf : RequirementFailure.t)
  (last : PathElement) (i : N) :
  RequirementFailure.new cs expr kind locator = Returned rf ->
  back (getPath locator) = Some last ->
  getKind last = ConditionalRequirement ->
  getValue last = i ->
  RequirementFailure.getRequirementIndex rf = Returned i
  /\ RequirementFailure.isConditional rf = true.
Proof.
  intros Hnew Hback Hkind Hvalue.
  apply RequirementFailure_new_Returned in Hnew.
  destruct Hnew as (Hbase & Hconf & _).
  assert (Hloc : RequirementFailure.getLocator rf = locator).
  { unfold RequirementFailure.getLocator. rewrite Hbase.
    unfold FailureDiagnostic.new.
    now destruct (FailureDiagnostic.computeAnchor cs locator). }
  assert (Hcr : isConditionalRequirement last = true).
  { unfold isConditionalRequirement. now rewrite Hkind. }
  split.
  - unfold RequirementFailure.getRequirementIndex.
    rewrite Hloc, Hback.
    destruct (getPath locator) as [|first rest]; [discriminate Hback|].
    cbn [negb assert obind]. rewrite Hcr, orb_true_r.
    cbn [assert obind]. now rewrite Hvalue.
  - unfold RequirementFailure.isConditional. rewrite Hconf.
    unfold RequirementFailure.getConformanceForConditionalReq.
    now rewrite Hback, Hcr.
Qed.

Lemma getRequirementIndex_conditional_witness :
  exists rf,
    RequirementFailure.new Snapshot.cs (Some Snapshot.binaryExpr)
      RK_Conformance Snapshot.conditionalLocator = Returned rf
    /\ RequirementFailure.getRequirementIndex rf = Returned 3%N
    /\ RequirementFailure.isConditional rf = true.
Proof.
  eexists. split; [reflexivity|].
  exact (getRequirementIndex_conditional
           Snapshot.cs (Some Snapshot.binaryExpr) RK_Conformance
           Snapshot.conditionalLocator
           (last := getConditionalRequirementComponent 3 RK_Conformance)
           eq_refl eq_refl eq_refl eq_refl).
Defined.

(** ** Emission *)

Section MismatchNotes.

Variable addNoteForMismatch : GenericArgumentsMismatchFailure.t -> Z -> M bool.
Variable self : GenericArgumentsMismatchFailure.t.

Local Abbreviation loop :=
  (GenericArgumentsMismatchFailure.addNotesForMismatches_loop
     addNoteForMismatch self).

(** Once [result] is true the loop makes no further call. *)
Lemma addNotesForMismatches_loop_true positions s :
  loop positions true s = Returned (true, s).
Proof.
  induction positions as [|position rest IH]; [reflexivity|].
  exact IH.
Qed.

Lemma addNotesForMismatches_loop_app before after result s :
  loop (before ++ after) result s
  = match loop before result s with
    | Returned (result', s') => loop after result' s'
    | Aborted why => Aborted why
    end.
Proof.
  revert result s.
  induction before as [|position rest IH]; intros result s; [reflexivity|].
  cbn [app GenericArgumentsMismatchFailure.addNotesForMismatches_loop].
  unfold bind.
  destruct ((if result then ret true
             else addNoteForMismatch self position) s) as [[r s1]|why];
    [apply IH | reflexivity].
Qed.

Lemma addNotesForMismatches_loop_notes positions :
  attachesNoteWhenTrue addNoteForMismatch ->
  forall result s r s',
    loop positions result s = Returned (r, s') ->
    exists new,
      s' = s ++ new
      /\ noteCount new = (if result then 0 else if r then 1 else 0)
      /\ (result = true -> r = true).
Proof.
  intros Hcontract.
  induction positions as [|position rest IH]; intros result s r s' Hrun.
  - injection Hrun as <- <-. exists []. rewrite app_nil_r.
    now destruct result.
  - destruct result.
    + rewrite addNotesForMismatches_loop_true in Hrun.
      injection Hrun as <- <-. exists []. now rewrite app_nil_r.
    + cbn [GenericArgumentsMismatchFailure.addNotesForMismatches_loop] in Hrun.
      unfold bind in Hrun.
      destruct (addNoteForMismatch self position s) as [[r1 s1]|why] eqn:Hcall;
        [|discriminate].
      destruct (Hcontract _ _ _ _ _ Hcall) as (new1 & -> & Hcount1).
      destruct (IH _ _ _ _ Hrun) as (new2 & -> & Hcount2 & Hmono).
      exists (new1 ++ new2). rewrite app_assoc. split; [reflexivity|].
      split; [|discriminate].
      unfold noteCount in *. rewrite filter_app, length_app.
      destruct r1.
      * rewrite (Hmono eq_refl), Hcount1, Hcount2. reflexivity.
      * rewrite Hcount1, Hcount2. reflexivity.
Qed.

End MismatchNotes.

(** C9. [GenericArgumentsMismatchFailure] stores every mismatch position
    it is given. [addNotesForMismatches] stops attempting notes at the
    first position for which [addNoteForMismatch] attaches one: the
    positions after it are not tried, and the state it returns is the one
    right after that call. Hence at most one note is attached, exactly
    one when it returns true. *)
Theorem addNotesForMismatches_stops_at_first_note
  (addNoteForMismatch : GenericArgumentsMismatchFailure.t -> Z -> M bool)
  expr cs actual required (mismatches : list Z) locator :
  let self :=
    GenericArgumentsMismatchFailure.new expr cs actual required
      mismatches locator in
  GenericArgumentsMismatchFailure.Mismatches self = mismatches
  /\ (forall before position after s s1 s2,
         mismatches = before ++ position :: after ->
         GenericArgumentsMismatchFailure.addNotesForMismatches_loop
           addNoteForMismatch self before false s = Returned (false, s1) ->
         addNoteForMismatch self position s1 = Returned (true, s2) ->
         GenericArgumentsMismatchFailure.addNotesForMismatches
           addNoteForMismatch self s = Returned (true, s2))
  /\ (attachesNoteWhenTrue addNoteForMismatch ->
      forall s r s',
        GenericArgumentsMismatchFailure.addNotesForMismatches
          addNoteForMismatch self s = Returned (r, s') ->
        exists new,
          s' = s ++ new
          /\ noteCount new <= 1
          /\ noteCount new = if r then 1 else 0).
Proof.
  intros self. split; [reflexivity|]. split.
  - intros before position after s s1 s2 -> Hbefore Hcall.
    unfold GenericArgumentsMismatchFailure.addNotesForMismatches.
    change (GenericArgumentsMismatchFailure.Mismatches self)
      with (before ++ position :: after).
    rewrite addNotesForMismatches_loop_app, Hbefore.
    cbn [GenericArgumentsMismatchFailure.addNotesForMismatches_loop].
    unfold bind. rewrite Hcall.
    apply addNotesForMismatches_loop_true.
  - intros Hcontract s r s' Hrun.
    destruct (@addNotesForMismatches_loop_notes addNoteForMismatch self
                (GenericArgumentsMismatchFailure.Mismatches self)
                Hcontract false s r s' Hrun) as (new & Hs' & Hcount & _).
    exists new. split; [exact Hs'|]. rewrite Hcount.
    destruct r; split; (lia || reflexivity).
Qed.

Lemma addNotesForMismatches_stops_at_first_note_witness :
  GenericArgumentsMismatchFailure.Mismatches Snapshot.mismatch
  = [0%Z; 1%Z; 2%Z]
  /\ exists new,
      GenericArgumentsMismatchFailure.addNotesForMismatches
        Snapshot.addNoteForMismatch Snapshot.mismatch [] = Returned (true, new)
      /\ map diagID new = [1%N]
      /\ noteCount new = 1.
Proof.
  split; [reflexivity|].
  eexists. split; [reflexivity|]. split; [reflexivity|].
  assert (Hcontract : attachesNoteWhenTrue Snapshot.addNoteForMismatch).
  { intros self position s r s' Hrun.
    unfold Snapshot.addNoteForMismatch in Hrun.
    destruct (position <=? 0)%Z.
    - injection Hrun as <- <-. exists []. now rewrite app_nil_r.
    - cbv - [app Z.to_N] in Hrun. injection Hrun as <- <-.
      eexists [_]. split; reflexivity. }
  destruct (addNotesForMismatches_stops_at_first_note
              Snapshot.addNoteForMismatch (Some Snapshot.callExpr)
              Snapshot.cs 51%N 52%N [0%Z; 1%Z; 2%Z]
              Snapshot.argumentLocator) as (_ & _ & Hnotes).
  match goal with
  | |- noteCount ?emitted = 1 =>
      destruct (Hnotes Hcontract [] true emitted eq_refl)
        as (new & Hnew & _ & Hcount)
  end.
  rewrite Hnew. exact Hcount.
Defined.

(** * Further properties of the header *)

(** ** Restrictions and selected overloads *)

(** X1. [getRestrictionForType] answers with the second type and the kind
    of the first recorded restriction whose first type is equal to the
    queried type, and with nothing exactly when no recorded restriction
    has such a first type. *)
Theorem getRestrictionForType_first_match
  (isEqual : TypeRef -> TypeRef -> bool)
  (restrictions : list (TypeRef * TypeRef * ConversionRestrictionKind))
  (type : TypeRef) :
  (forall second kind,
      getRestrictionForType isEqual restrictions type = Some (second, kind)
      <-> exists before first after,
          restrictions = before ++ (first, second, kind) :: after
          /\ isEqual first type = true
          /\ forall e, In e before -> isEqual (fst (fst e)) type = false)
  /\ (getRestrictionForType isEqual restrictions type = None
      <-> forall e, In e restrictions -> isEqual (fst (fst e)) type = false).
Proof.
  induction restrictions as [|[[first0 second0] kind0] rest [IHsome IHnone]].
  - split.
    + intros second kind. split; [discriminate|].
      intros (before & first & after & Heq & _). now destruct before.
    + split; [intros _ e [] | reflexivity].
  - cbn [getRestrictionForType].
    destruct (isEqual first0 type) eqn:Hfirst.
    + split.
      * intros second kind. split.
        -- intros [= <- <-]. exists [], first0, rest.
           repeat split; trivial. intros e [].
        -- intros (before & first & after & Heq & Hmatch & Hnone).
           destruct before as [|e before]; cbn [app] in Heq.
           ++ now injection Heq as -> -> -> _.
           ++ injection Heq as <- _.
              specialize (Hnone _ (or_introl eq_refl)). cbn in Hnone.
              congruence.
      * split; [discriminate|].
        intros Hall. specialize (Hall _ (or_introl eq_refl)).
        cbn in Hall. congruence.
    + split.
      * intros second kind. rewrite IHsome. split.
        -- intros (before & first & after & -> & Hmatch & Hnone).
           exists ((first0, second0, kind0) :: before), first, after.
           repeat split; trivial.
           intros e [<- | Hin]; [exact Hfirst | now apply Hnone].
        -- intros (before & first & after & Heq & Hmatch & Hnone).
           destruct before as [|e before]; cbn [app] in Heq.
           ++ injection Heq as -> _ _ _. congruence.
           ++ injection Heq as <- ->. exists before, first, after.
              repeat split; trivial. intros e Hin. apply Hnone. now right.
      * rewrite IHnone. split.
        -- intros Hall e [<- | Hin]; [exact Hfirst | now apply Hall].
        -- intros Hall e Hin. apply Hall. now right.
Qed.

(** X2. [getOverloadChoiceIfAvailable] gives the choice and the two types
    of the most recently resolved record for the locator, and nothing
    when the chain has no record for it. *)
Theorem getOverloadChoiceIfAvailable_most_recent
  (self : FailureDiagnostic.t) (locator : option ConstraintLocator.t) :
  FailureDiagnostic.getOverloadChoiceIfAvailable self locator
  = match find (matches locator)
            (chain (getResolvedOverloadSets
                      (FailureDiagnostic.getConstraintSystem self))) with
    | Some r => Some {| choice := Choice r;
                        openedFullType := OpenedFullType r;
                        openedType := ImpliedType r |}
    | None => None
    end.
Proof.
  unfold FailureDiagnostic.getOverloadChoiceIfAvailable,
    FailureDiagnostic.getResolvedOverload.
  destruct (getResolvedOverloadSets
              (FailureDiagnostic.getConstraintSystem self)) as [head|];
    cbn [chain find]; [|reflexivity].
  now rewrite getResolvedOverload_loop_find.
Qed.

(** ** More on requirement failures *)

(** X3. The constructor of [RequirementFailure] returns exactly when a
    conformance or a signature is available for the locator, the affected
    declaration is found, and the locator ends in a requirement element
    of the constructed kind; otherwise one of its assertions fires. *)
Theorem RequirementFailure_new_returns_iff cs expr kind locator :
  isAborted (RequirementFailure.new cs expr kind locator) = false
  <-> (RequirementFailure.isSome
         (RequirementFailure.getConformanceForConditionalReq cs locator)
       || RequirementFailure.isSome (signatureFor cs locator)) = true
      /\ RequirementFailure.isSome (declRefFor cs locator) = true
      /\ requirementLocatorOK kind locator = true.
Proof.
  split.
  - destruct (RequirementFailure.new cs expr kind locator) as [rf|why] eqn:H;
      [intros _ | discriminate].
    unfold RequirementFailure.new in H.
    destruct_assert H. destruct_assert H. destruct_assert H.
    destruct (back (getPath locator)) as [last|] eqn:Hback; [|discriminate H].
    destruct_assert H. destruct_assert H.
    split; [exact Hassert|]. split; [exact Hassert0|].
    unfold requirementLocatorOK. now rewrite Hback, Hassert2, Hassert3.
  - intros (Hone & Hdecl & Hok).
    unfold requirementLocatorOK in Hok.
    destruct (back (getPath locator)) as [last|] eqn:Hback; [|discriminate].
    apply andb_true_iff in Hok. destruct Hok as [Hreq Hkind].
    unfold RequirementFailure.new, RequirementFailure.isConditional,
      RequirementFailure.getSignature, RequirementFailure.getDeclRef.
    cbn [RequirementFailure.Conformance].
    rewrite Hone, Hdecl, Hback. cbn [assert obind].
    destruct (getPath locator) as [|first rest]; [discriminate Hback|].
    cbn [negb assert obind]. rewrite Hreq, Hkind. cbn [assert obind].
    destruct expr as [e|]; [|reflexivity].
    now destruct (FailureDiagnostic.findParentExpr _ _).
Qed.

(** X4. On a constructed requirement failure [getRequirementIndex] trips
    none of its assertions: it returns the first value of the last path
    element, for a type-parameter requirement as for a conditional
    one. *)
Theorem getRequirementIndex_of_constructed
  cs expr kind locator (rf : RequirementFailure.t) :
  RequirementFailure.new cs expr kind locator = Returned rf ->
  exists last,
    back (getPath locator) = Some last
    /\ RequirementFailure.getRequirementIndex rf = Returned (getValue last).
Proof.
  intros Hnew.
  apply RequirementFailure_new_Returned in Hnew.
  destruct Hnew as (Hbase & _ & _ & _ & _ & (last & Hback & Hreq & _) & _).
  exists last. split; [exact Hback|].
  unfold RequirementFailure.getRequirementIndex, RequirementFailure.getLocator.
  rewrite Hbase. unfold FailureDiagnostic.new.
  destruct (FailureDiagnostic.computeAnchor cs locator) as [anchor complex].
  cbn [FailureDiagnostic.getLocator]. rewrite Hback.
  destruct (getPath locator) as [|first rest]; [discriminate Hback|].
  cbn [negb assert obind]. now rewrite Hreq.
Qed.

Lemma getRequirementIndex_of_constructed_witness :
  exists rf,
    RequirementFailure.new Snapshot.cs (Some Snapshot.binaryExpr)
      RK_SameType Snapshot.operatorLocator = Returned rf
    /\ RequirementFailure.getRequirementIndex rf = Returned 1%N.
Proof.
  eexists. split; [reflexivity|].
  destruct (getRequirementIndex_of_constructed
              Snapshot.cs (Some Snapshot.binaryExpr) RK_SameType
              Snapshot.operatorLocator eq_refl) as (last & Hback & Hindex).
  rewrite Hindex. now injection Hback as <-.
Defined.

(** X5. On a constructed requirement failure [canDiagnoseFailure] never
    reads the front of an empty path, and its answer is: true for a
    conditional failure; otherwise false when the anchor is an unresolved
    member whose locator does not start with an unresolved-member step,
    or when the enclosing application is an operator or the anchor a type
    reference; true in every other case. *)
Theorem canDiagnoseFailure_decision
  cs expr kind locator (rf : RequirementFailure.t) :
  RequirementFailure.new cs expr kind locator = Returned rf ->
  exists first,
    front (getPath locator) = Some first
    /\ RequirementFailure.canDiagnoseFailure rf
       = Returned
           (RequirementFailure.isConditional rf
            || negb (isa_UnresolvedMemberExpr (RequirementFailure.getAnchor rf)
                     && negb (PathElementKind_eqb (getKind first)
                                UnresolvedMember))
               && negb (RequirementFailure.deferredToArgument rf)).
Proof.
  intros Hnew.
  apply RequirementFailure_new_Returned in Hnew.
  destruct Hnew as (Hbase & _ & _ & _ & _ & (last & Hback & _) & _).
  apply back_Some_front in Hback. destruct Hback as (first & rest & Hpath).
  exists first. split; [now rewrite Hpath|].
  unfold RequirementFailure.canDiagnoseFailure, RequirementFailure.getLocator.
  rewrite Hbase. unfold FailureDiagnostic.new.
  destruct (FailureDiagnostic.computeAnchor cs locator) as [anchor complex].
  cbn [FailureDiagnostic.getLocator]. rewrite Hpath. cbn [front].
  destruct (RequirementFailure.isConditional rf); [reflexivity|].
  destruct (isa_UnresolvedMemberExpr (RequirementFailure.getAnchor rf));
    [|reflexivity].
  now destruct (PathElementKind_eqb (getKind first) UnresolvedMember).
Qed.

Lemma canDiagnoseFailure_decision_witness :
  exists rf,
    RequirementFailure.new Snapshot.cs (Some Snapshot.callExpr)
      RK_Superclass Snapshot.typeLocator = Returned rf
    /\ RequirementFailure.canDiagnoseFailure rf = Returned false.
Proof.
  eexists. split; [reflexivity|].
  destruct (canDiagnoseFailure_decision
              Snapshot.cs (Some Snapshot.callExpr) RK_Superclass
              Snapshot.typeLocator eq_refl) as (first & Hfront & Hcan).
  rewrite Hcan. reflexivity.
Defined.

(** ** More on the notes for mismatches *)

Section MismatchNotesResult.

Variable addNoteForMismatch : GenericArgumentsMismatchFailure.t -> Z -> M bool.
Variable self : GenericArgumentsMismatchFailure.t.

Local Abbreviation loop :=
  (GenericArgumentsMismatchFailure.addNotesForMismatches_loop
     addNoteForMismatch self).

Lemma addNotesForMismatches_loop_false_iff positions s s' :
  loop positions false s = Returned (false, s')
  <-> noneAttached addNoteForMismatch self positions s s'.
Proof.
  revert s. induction positions as [|position rest IH]; intros s.
  - cbn. split.
    + intros [= <-]. constructor.
    + intros H. now inversion H.
  - cbn [GenericArgumentsMismatchFailure.addNotesForMismatches_loop].
    unfold bind. split.
    + destruct (addNoteForMismatch self position s) as [[[|] s1]|why] eqn:Hcall;
        [|intros Hrest|discriminate].
      * rewrite addNotesForMismatches_loop_true. discriminate.
      * econstructor; [exact Hcall | now apply IH].
    + intros H. inversion H as [|p r s0 s1 s2 Hcall Hrest]; subst.
      rewrite Hcall. now apply IH.
Qed.

Lemma addNotesForMismatches_loop_true_iff positions s s' :
  loop positions false s = Returned (true, s')
  <-> exists before position after s1,
      positions = before ++ position :: after
      /\ noneAttached addNoteForMismatch self before s s1
      /\ addNoteForMismatch self position s1 = Returned (true, s').
Proof.
  revert s. induction positions as [|position rest IH]; intros s.
  - cbn. split; [discriminate|].
    intros (before & p & after & s1 & Heq & _). now destruct before.
  - cbn [GenericArgumentsMismatchFailure.addNotesForMismatches_loop].
    unfold bind. split.
    + destruct (addNoteForMismatch self position s) as [[[|] s1]|why] eqn:Hcall;
        [| |discriminate].
      * rewrite addNotesForMismatches_loop_true. intros [= <-].
        exists [], position, rest, s. repeat split; trivial. constructor.
      * intros Hrest. apply IH in Hrest.
        destruct Hrest as (before & p & after & s2 & -> & Hnone & Hp).
        exists (position :: before), p, after, s2.
        repeat split; trivial. econstructor; eassumption.
    + intros (before & p & after & s1 & Heq & Hnone & Hp).
      destruct before as [|b before]; cbn [app] in Heq.
      * injection Heq as <- <-. inversion Hnone; subst.
        rewrite Hp. apply addNotesForMismatches_loop_true.
      * injection Heq as <- ->.
        inversion Hnone as [|p0 r s0 s2 s3 Hcall Hrest]; subst.
        rewrite Hcall. apply IH. now exists before, p, after, s1.
Qed.

End MismatchNotesResult.

(** X6. [addNotesForMismatches] returns false exactly when it has tried
    every stored position, in order, and none attached a note (for an
    empty list it returns false at once); it returns true exactly when
    some position attaches a note after all the positions before it have
    failed to, and the sink is then the one that call left. *)
Theorem addNotesForMismatches_result
  (addNoteForMismatch : GenericArgumentsMismatchFailure.t -> Z -> M bool)
  (self : GenericArgumentsMismatchFailure.t) (s s' : Sink) :
  (GenericArgumentsMismatchFailure.addNotesForMismatches
     addNoteForMismatch self s = Returned (false, s')
   <-> noneAttached addNoteForMismatch self
         (GenericArgumentsMismatchFailure.Mismatches self) s s')
  /\ (GenericArgumentsMismatchFailure.addNotesForMismatches
        addNoteForMismatch self s = Returned (true, s')
      <-> exists before position after s1,
          GenericArgumentsMismatchFailure.Mismatches self
          = before ++ position :: after
          /\ noneAttached addNoteForMismatch self before s s1
          /\ addNoteForMismatch self position s1 = Returned (true, s')).
Proof.
  unfold GenericArgumentsMismatchFailure.addNotesForMismatches. split.
  - apply addNotesForMismatches_loop_false_iff.
  - apply addNotesForMismatches_loop_true_iff.
Qed.

(** * Properties of the string utilities *)

(** ** The word iterator *)

Lemma to_bits31_small n : (n < 2 ^ 31)%N -> WordIterator.to_bits31 n = n.
Proof. intros H. now apply N.mod_small. Qed.

Lemma to_bits31_bound n : (WordIterator.to_bits31 n < 2 ^ 31)%N.
Proof. now apply N.mod_upper_bound. Qed.

Lemma WordIterator_eq_same_string x y :
  WordIterator.String x = WordIterator.String y ->
  WordIterator.eq x y
  = Some (N.eqb (WordIterator.Position x) (WordIterator.Position y)).
Proof.
  intros Hstr. unfold WordIterator.eq. rewrite Hstr.
  now rewrite !N.eqb_refl.
Qed.

(** X7. Stepping a word iterator forward and then back returns to where
    it stood, for positions that fit the 31-bit cache: the position and
    the string are the same, the iterator compares equal to the original,
    and it designates the same word. The step back uses the position
    saved by the step forward, and the word is read from the cache:
    neither [computePrevPosition] nor [computeNextPosition] is called for
    them. *)
Theorem WordIterator_increment_then_decrement
  (computeNextPosition computePrevPosition : WordIterator.t -> WordIterator.t)
  (it : WordIterator.t) :
  (WordIterator.Position it < 2 ^ 31)%N ->
  (WordIterator.NextPosition it < 2 ^ 31)%N ->
  let back :=
    WordIterator.predecrement computePrevPosition
      (WordIterator.preincrement computeNextPosition it) in
  WordIterator.Position back = WordIterator.Position it
  /\ WordIterator.String back = WordIterator.String it
  /\ WordIterator.eq back it = Some true
  /\ (forall computePrev',
         WordIterator.predecrement computePrev'
           (WordIterator.preincrement computeNextPosition it) = back)
  /\ (forall computeNext',
         fst (WordIterator.deref computeNext' back)
         = fst (WordIterator.deref computeNextPosition it)).
Proof.
  intros Hpos Hnext back.
  assert (Hp : WordIterator.Position back = WordIterator.Position it).
  { unfold back, WordIterator.predecrement, WordIterator.preincrement.
    cbn. destruct (WordIterator.NextPositionValid it); cbn;
      now apply to_bits31_small. }
  assert (Hs : WordIterator.String back = WordIterator.String it).
  { unfold back, WordIterator.predecrement, WordIterator.preincrement.
    cbn. now destruct (WordIterator.NextPositionValid it). }
  split; [exact Hp|]. split; [exact Hs|]. split.
  - rewrite (WordIterator_eq_same_string _ _ Hs), Hp.
    now rewrite N.eqb_refl.
  - split; [reflexivity|].
    intros computeNext'.
    unfold back, WordIterator.deref, WordIterator.predecrement,
      WordIterator.preincrement.
    cbn. destruct (WordIterator.NextPositionValid it); cbn.
    + now rewrite !to_bits31_small.
    + rewrite (to_bits31_small Hpos).
      now rewrite (to_bits31_small (to_bits31_bound _)).
Qed.

Lemma WordIterator_increment_then_decrement_witness :
  let it := Words.begin (getWords Names.camelCase) in
  let forth := WordIterator.preincrement Names.skipFive it in
  let back := WordIterator.predecrement Names.skipFive forth in
  WordIterator.Position forth = 5%N
  /\ WordIterator.Position back = 0%N
  /\ StringRef.Chars (fst (WordIterator.deref Names.skipFive back))
     = Names.camel.
Proof.
  intros it forth back.
  split; [reflexivity|].
  assert (Hpos : (WordIterator.Position it < 2 ^ 31)%N) by reflexivity.
  assert (Hnext : (WordIterator.NextPosition it < 2 ^ 31)%N) by reflexivity.
  destruct (WordIterator_increment_then_decrement Names.skipFive
              Names.skipFive it Hpos Hnext) as (Hp & _ & _ & _ & Hword).
  split; [exact Hp|].
  unfold back, forth. rewrite (Hword Names.skipFive). reflexivity.
Defined.

(** X8. Stepping a word iterator back and then forward returns to where
    it stood, for positions that fit the 31-bit cache, and the step
    forward does not call [computeNextPosition]. After the step back the
    iterator designates the word that ends where it stood before, read
    from the cache. *)
Theorem WordIterator_decrement_then_increment
  (computeNextPosition computePrevPosition : WordIterator.t -> WordIterator.t)
  (it : WordIterator.t) :
  (WordIterator.Position it < 2 ^ 31)%N ->
  let back := WordIterator.predecrement computePrevPosition it in
  let forth := WordIterator.preincrement computeNextPosition back in
  WordIterator.Position forth = WordIterator.Position it
  /\ WordIterator.String forth = WordIterator.String it
  /\ WordIterator.eq forth it = Some true
  /\ (forall computeNext',
         WordIterator.preincrement computeNext' back = forth)
  /\ (forall computeNext',
         fst (WordIterator.deref computeNext' back)
         = StringRef.slice (WordIterator.String it)
             (WordIterator.Position back) (WordIterator.Position it)).
Proof.
  intros Hpos back forth.
  assert (Hp : WordIterator.Position forth = WordIterator.Position it).
  { unfold forth, back, WordIterator.predecrement, WordIterator.preincrement.
    cbn. destruct (WordIterator.PrevPositionValid it); cbn;
      now apply to_bits31_small. }
  assert (Hs : WordIterator.String forth = WordIterator.String it).
  { unfold forth, back, WordIterator.predecrement, WordIterator.preincrement.
    cbn. now destruct (WordIterator.PrevPositionValid it). }
  split; [exact Hp|]. split; [exact Hs|]. split.
  - rewrite (WordIterator_eq_same_string _ _ Hs), Hp.
    now rewrite N.eqb_refl.
  - split; [reflexivity|].
    intros computeNext'.
    unfold back, WordIterator.deref, WordIterator.predecrement.
    cbn. destruct (WordIterator.PrevPositionValid it); cbn;
      now rewrite (to_bits31_small Hpos).
Qed.

Lemma WordIterator_decrement_then_increment_witness :
  let it :=
    WordIterator.preincrement Names.skipFive
      (Words.begin (getWords Names.camelCase)) in
  let back := WordIterator.predecrement Names.skipFive it in
  WordIterator.Position back = 0%N
  /\ WordIterator.Position (WordIterator.preincrement Names.skipFive back)
     = 5%N
  /\ StringRef.Chars (fst (WordIterator.deref Names.skipFive back))
     = Names.camel.
Proof.
  intros it back.
  split; [reflexivity|].
  assert (Hpos : (WordIterator.Position it < 2 ^ 31)%N) by reflexivity.
  destruct (WordIterator_decrement_then_increment Names.skipFive
              Names.skipFive it Hpos) as (Hp & _ & _ & _ & Hword).
  split; [exact Hp|].
  unfold back. rewrite (Hword Names.skipFive). reflexivity.
Defined.

(** X9. The saved position has 31 bits while the position has 32: an
    iterator standing at [2^31] or beyond does not come back from a step
    forward and a step back. It lands [2^31] characters before, and
    compares different from the original. *)
Theorem WordIterator_round_trip_wraps_beyond_31_bits
  (computeNextPosition computePrevPosition : WordIterator.t -> WordIterator.t)
  (it : WordIterator.t) :
  (2 ^ 31 <= WordIterator.Position it)%N ->
  (WordIterator.Position it < 2 ^ 32)%N ->
  let back :=
    WordIterator.predecrement computePrevPosition
      (WordIterator.preincrement computeNextPosition it) in
  WordIterator.Position back = (WordIterator.Position it - 2 ^ 31)%N
  /\ WordIterator.eq back it = Some false.
Proof.
  intros Hlow Hhigh back.
  assert (Hp : WordIterator.Position back
               = (WordIterator.Position it - 2 ^ 31)%N).
  { unfold back, WordIterator.predecrement, WordIterator.preincrement.
    cbn. unfold WordIterator.to_bits31.
    assert (Hmod : forall p, (2 ^ 31 <= p)%N -> (p < 2 ^ 32)%N ->
                             (p mod 2 ^ 31 = p - 2 ^ 31)%N).
    { intros p Hl Hh.
      symmetry. apply (N.mod_unique p (2 ^ 31) 1); lia. }
    destruct (WordIterator.NextPositionValid it); cbn; now apply Hmod. }
  split; [exact Hp|].
  assert (Hs : WordIterator.String back = WordIterator.String it).
  { unfold back, WordIterator.predecrement, WordIterator.preincrement.
    cbn. now destruct (WordIterator.NextPositionValid it). }
  rewrite (WordIterator_eq_same_string _ _ Hs), Hp.
  f_equal. apply N.eqb_neq. lia.
Qed.

Lemma WordIterator_round_trip_wraps_beyond_31_bits_witness :
  let it := WordIterator.new Names.camelCase (2 ^ 31 + 4) in
  WordIterator.Position it = (2 ^ 31 + 4)%N
  /\ WordIterator.Position
       (WordIterator.predecrement Names.skipFive
          (WordIterator.preincrement Names.skipFive it)) = 4%N.
Proof.
  intros it. split; [reflexivity|].
  assert (Hlow : (2 ^ 31 <= WordIterator.Position it)%N)
    by (vm_compute; discriminate).
  assert (Hhigh : (WordIterator.Position it < 2 ^ 32)%N) by reflexivity.
  destruct (WordIterator_round_trip_wraps_beyond_31_bits Names.skipFive
              Names.skipFive it Hlow Hhigh) as (Hp & _).
  rewrite Hp. reflexivity.
Defined.

(** ** Words *)

(** X10. For a string shorter than [2^32] characters, [begin()] and
    [end()] of its words compare equal exactly when [empty()] holds; the
    comparison's assertion does not fire. *)
Theorem Words_begin_is_end_iff_empty (words : Words.t) :
  (StringRef.size (Words.String words) < 2 ^ 32)%N ->
  WordIterator.eq (Words.begin words) (Words.end_ words)
  = Some (Words.empty words)
  /\ WordIterator.neq (Words.begin words) (Words.end_ words)
     = Some (negb (Words.empty words)).
Proof.
  intros Hsize.
  assert (Heq : WordIterator.eq (Words.begin words) (Words.end_ words)
                = Some (Words.empty words)).
  { rewrite WordIterator_eq_same_string by reflexivity.
    unfold Words.begin, Words.end_, Words.empty, StringRef.empty,
      WordIterator.new, WordIterator.to_unsigned.
    cbn [WordIterator.Position].
    rewrite (N.mod_small _ _ Hsize), N.Div0.mod_0_l.
    now rewrite N.eqb_sym. }
  split; [exact Heq|]. unfold WordIterator.neq. now rewrite Heq.
Qed.

Lemma Words_begin_is_end_iff_empty_witness :
  WordIterator.neq (Words.begin (getWords Names.camelCase))
    (Words.end_ (getWords Names.camelCase)) = Some true
  /\ WordIterator.eq (Words.begin (getWords Names.none))
       (Words.end_ (getWords Names.none)) = Some true.
Proof.
  split.
  - assert (Hsize : (StringRef.size (Words.String (getWords Names.camelCase))
                     < 2 ^ 32)%N) by reflexivity.
    destruct (Words_begin_is_end_iff_empty _ Hsize) as (_ & Hneq).
    rewrite Hneq. reflexivity.
  - assert (Hsize : (StringRef.size (Words.String (getWords Names.none))
                     < 2 ^ 32)%N) by reflexivity.
    destruct (Words_begin_is_end_iff_empty _ Hsize) as (Heq & _).
    rewrite Heq. reflexivity.
Defined.

(** ** Type names for omitting needless words *)

Lemma StringRef_eqb_refl s : StringRef.eqb s s = true.
Proof. apply String.eqb_refl. Qed.

Lemma StringRef_eqb_sym a b : StringRef.eqb a b = StringRef.eqb b a.
Proof. apply String.eqb_sym. Qed.

(** X11. Equality of [OmissionTypeName]s is reflexive and symmetric, and
    [operator!=] is its negation, whichever operand comes first. *)
Theorem OmissionTypeName_eqb_reflexive_symmetric
  (lhs rhs : OmissionTypeName.t) :
  OmissionTypeName.eqb lhs lhs = true
  /\ OmissionTypeName.eqb lhs rhs = OmissionTypeName.eqb rhs lhs
  /\ OmissionTypeName.neqb lhs rhs = negb (OmissionTypeName.eqb rhs lhs).
Proof.
  assert (Hsym : OmissionTypeName.eqb lhs rhs = OmissionTypeName.eqb rhs lhs).
  { unfold OmissionTypeName.eqb.
    rewrite (StringRef_eqb_sym (OmissionTypeName.Name lhs)).
    rewrite (StringRef_eqb_sym (OmissionTypeName.CollectionElement lhs)).
    f_equal. f_equal. apply orb_comm. }
  split.
  - unfold OmissionTypeName.eqb. rewrite !StringRef_eqb_refl.
    now rewrite !orb_true_r.
  - split; [exact Hsym|].
    unfold OmissionTypeName.neqb. now rewrite Hsym.
Qed.

(** X12. Equality of [OmissionTypeName]s is not transitive. A name without
    collection element is equal to every name with the same type name, so
    it stands between two names whose collection elements differ, and
    these two are not equal. *)
Theorem OmissionTypeName_eqb_not_transitive
  (name x y none : StringRef.t) :
  StringRef.empty none = true ->
  StringRef.empty x = false ->
  StringRef.empty y = false ->
  StringRef.eqb x y = false ->
  let withX := {| OmissionTypeName.Name := name;
                  OmissionTypeName.CollectionElement := x |} in
  let bare := {| OmissionTypeName.Name := name;
                 OmissionTypeName.CollectionElement := none |} in
  let withY := {| OmissionTypeName.Name := name;
                  OmissionTypeName.CollectionElement := y |} in
  OmissionTypeName.eqb withX bare = true
  /\ OmissionTypeName.eqb bare withY = true
  /\ OmissionTypeName.eqb withX withY = false.
Proof.
  intros Hnone Hx Hy Hxy withX bare withY.
  unfold OmissionTypeName.eqb. cbn.
  rewrite StringRef_eqb_refl, Hnone, Hx, Hy, Hxy.
  now rewrite !orb_true_r.
Qed.

Lemma OmissionTypeName_eqb_not_transitive_witness :
  OmissionTypeName.eqb
    {| OmissionTypeName.Name := Names.NSArray;
       OmissionTypeName.CollectionElement := Names.NSString |}
    {| OmissionTypeName.Name := Names.NSArray;
       OmissionTypeName.CollectionElement := Names.none |} = true
  /\ OmissionTypeName.eqb
       {| OmissionTypeName.Name := Names.NSArray;
          OmissionTypeName.CollectionElement := Names.none |}
       {| OmissionTypeName.Name := Names.NSArray;
          OmissionTypeName.CollectionElement := Names.NSNumber |} = true
  /\ OmissionTypeName.eqb
       {| OmissionTypeName.Name := Names.NSArray;
          OmissionTypeName.CollectionElement := Names.NSString |}
       {| OmissionTypeName.Name := Names.NSArray;
          OmissionTypeName.CollectionElement := Names.NSNumber |} = false.
Proof.
  exact (OmissionTypeName_eqb_not_transitive Names.NSArray Names.NSString
           Names.NSNumber Names.none eq_refl eq_refl eq_refl eq_refl).
Defined.

(** ** Loaded lvalues *)

(** X13. [isLoadedLValue] looks through wrappers, and holds exactly when
    every alternative the expression can evaluate to, through the
    branches of nested conditionals, is a load; the conditions themselves
    are not looked at. *)
Theorem isLoadedLValue_all_alternatives_loaded
  (expr : AssignmentFailure.ExprTree) :
  AssignmentFailure.isLoadedLValue expr
  = forallb AssignmentFailure.isa_LoadExpr
      (AssignmentFailure.alternatives expr)
  /\ AssignmentFailure.isLoadedLValue expr
     = match AssignmentFailure.getSemanticsProvidingExpr expr with
       | AssignmentFailure.TLoad _ => true
       | AssignmentFailure.TIf _ thenExpr elseExpr =>
           AssignmentFailure.isLoadedLValue thenExpr
           && AssignmentFailure.isLoadedLValue elseExpr
       | _ => false
       end.
Proof.
  split.
  - induction expr as [sub _ | c _ t IHt e IHe | sub IH | kind];
      cbn [AssignmentFailure.isLoadedLValue AssignmentFailure.alternatives
           forallb AssignmentFailure.isa_LoadExpr];
      trivial.
    now rewrite forallb_app, IHt, IHe.
  - induction expr as [sub _ | c _ t _ e _ | sub IH | kind];
      cbn [AssignmentFailure.isLoadedLValue
           AssignmentFailure.getSemanticsProvidingExpr];
      trivial.
Qed.

(** ** One locator, one kind of requirement failure *)



